(** * Layout reconstruction of the PDF conversion page

    A shallow embedding of the pure layout code of the convert page
    ([groupIntoLines], [detectColumns], [assignCol], and the block and
    sheet construction of [convertToWord] and [convertToExcel]), with the
    properties its specification states about them.

    Conventions.
    - Positions are the results of [Math.round], hence integers: [Z].
    - A JavaScript string is its sequence of UTF-16 code units, [list N];
      [lit] turns an ASCII literal into such a sequence.
    - A tolerance is an integer, as at both call sites (5 and 8).
    - [Array.prototype.sort] is stable and is given consistent comparators
      here (differences of integer keys), so its result is the stable
      ordering of the input: [js_sort] is the stable insertion sort.
    - A [TypeError] is [None] in the option monad. *)

From Stdlib Require Import ZArith String Ascii Sorted Permutation.
From stdpp Require Import base option list sorting pretty.

Local Open Scope Z_scope.

(** ** Strings *)

Abbreviation jsstring := (list N).

Definition lit (s : string) : jsstring :=
  N_of_ascii <$> list_ascii_of_string s.

(** ECMAScript [WhiteSpace] and [LineTerminator] code points, all of them in
    the basic plane: TAB, LF, VT, FF, CR, SP, NBSP, the [Zs] category, LS, PS
    and the byte order mark. *)
Definition isWhiteSpace (c : N) : bool :=
  ((9 <=? c) && (c <=? 13) || (c =? 32) || (c =? 160) || (c =? 5760)
   || (8192 <=? c) && (c <=? 8202) || (c =? 8232) || (c =? 8233)
   || (c =? 8239) || (c =? 8287) || (c =? 12288) || (c =? 65279))%N.

Fixpoint trimStart (s : jsstring) : jsstring :=
  match s with
  | c :: s' => if isWhiteSpace c then trimStart s' else s
  | [] => []
  end.

(** [String.prototype.trim] *)
Definition trim (s : jsstring) : jsstring :=
  reverse (trimStart (reverse (trimStart s))).

(** Truthiness of a string: it is not the empty string. *)
Definition truthy (s : jsstring) : bool :=
  match s with [] => false | _ :: _ => true end.

(** [Array.prototype.join] *)
Fixpoint join (sep : jsstring) (l : list jsstring) : jsstring :=
  match l with
  | [] => []
  | [s] => s
  | s :: l' => s ++ sep ++ join sep l'
  end.

(** Template-literal rendering of a non-negative integer. *)
Definition decimal (n : nat) : jsstring := lit (pretty (N.of_nat n)).

(** ** Text items *)

Module Item.
Record t : Type := mk {
  str : jsstring;
  x : Z;
  y : Z;
  width : Z;
  height : Z
}.
End Item.
Abbreviation TextItem := Item.t.

(** ** Sorting *)

Section Sort.
Context {A : Type} (cmp : A → A → Z).

(** [a] goes before the first element it does not compare greater than:
    inserting the elements from the right keeps equal keys in input
    order. *)
Fixpoint sort_insert (a : A) (l : list A) : list A :=
  match l with
  | [] => [a]
  | b :: l' => if cmp a b <=? 0 then a :: l else b :: sort_insert a l'
  end.

Definition js_sort (l : list A) : list A := foldr sort_insert [] l.
End Sort.

(** [(a, b) => a.y - b.y || a.x - b.x] *)
Definition cmpYX (a b : TextItem) : Z :=
  let d := Item.y a - Item.y b in
  if d =? 0 then Item.x a - Item.x b else d.

(** [(a, b) => a.x - b.x] *)
Definition cmpX (a b : TextItem) : Z := Item.x a - Item.x b.

(** [(a, b) => a - b] *)
Definition cmpNum (a b : Z) : Z := a - b.

(** ** groupIntoLines *)

(** One iteration of the loop: [lines[lines.length - 1]] is [last lines];
    on an empty [lines] it is [undefined], which is falsy.  Reading
    [lastLine[0].y] on an empty line would throw. *)
Definition group_step (tolerance : Z) (lines : list (list TextItem))
    (item : TextItem) : option (list (list TextItem)) :=
  match last lines with
  | Some lastLine =>
      first ← head lastLine;
      if bool_decide (Z.abs (Item.y item - Item.y first) ≤ tolerance)
      then Some (alter (λ l, l ++ [item]) (pred (length lines)) lines)
      else Some (lines ++ [[item]])
  | None => Some (lines ++ [[item]])
  end.

Fixpoint group_loop (tolerance : Z) (lines : list (list TextItem))
    (sorted : list TextItem) : option (list (list TextItem)) :=
  match sorted with
  | [] => Some lines
  | item :: rest =>
      lines' ← group_step tolerance lines item;
      group_loop tolerance lines' rest
  end.

Definition groupIntoLines (items : list TextItem) (tolerance : Z)
    : option (list (list TextItem)) :=
  let sorted := js_sort cmpYX items in
  match group_loop tolerance [] sorted with
  | Some lines => Some (js_sort cmpX <$> lines)
  | None => None
  end.

(** ** detectColumns *)

(** [[...new Set(xPositions)]]: the distinct values, in order of first
    occurrence. *)
Definition set_add (seen : list Z) (v : Z) : list Z :=
  if bool_decide (v ∈ seen) then seen else seen ++ [v].

Definition distinct (l : list Z) : list Z := foldl set_add [] l.

(** [lines.flatMap((l) => l.map((i) => i.x))] *)
Definition xPositions (lines : list (list TextItem)) : list Z :=
  lines ≫= fmap Item.x.

(** One iteration of the clustering loop; [cols[cols.length - 1]] is
    [last cols]. *)
Definition col_step (cols : list Z) (x : Z) : list Z :=
  match last cols with
  | None => cols ++ [x]
  | Some c => if bool_decide (20 < x - c) then cols ++ [x] else cols
  end.

Definition detectColumns (lines : list (list TextItem)) : list Z :=
  let sorted := js_sort cmpNum (distinct (xPositions lines)) in
  foldl col_step [] sorted.

(** ** assignCol *)

(** [bestDist] starts at [Infinity], here [None]; every distance is
    below it. *)
Definition dist_lt (d : Z) (bestDist : option Z) : bool :=
  match bestDist with
  | None => true
  | Some b => d <? b
  end.

(** The [for] loop from index [i] on, [cols] being what is left to scan. *)
Fixpoint assignCol_loop (x : Z) (cols : list Z) (i best : nat)
    (bestDist : option Z) : nat :=
  match cols with
  | [] => best
  | c :: rest =>
      let d := Z.abs (x - c) in
      if dist_lt d bestDist
      then assignCol_loop x rest (S i) i (Some d)
      else assignCol_loop x rest (S i) best bestDist
  end.

Definition assignCol (x : Z) (cols : list Z) : nat :=
  assignCol_loop x cols 0 0 None.

(** ** convertToWord *)

Inductive HeadingLevel : Type := HEADING_1 | HEADING_2.

Record TextRun : Type := mkTextRun {
  run_text : jsstring;
  bold : bool;
  size : Z
}.

(** The options object handed to [new Paragraph]; an absent [text] or
    [heading] is [None], absent [children] is [[]], an absent
    [pageBreakBefore] is [false]. *)
Record Paragraph : Type := mkParagraph {
  text : option jsstring;
  heading : option HeadingLevel;
  children : list TextRun;
  pageBreakBefore : bool
}.

(** [s.replace(pat, rep)] with a string pattern: the first occurrence of
    [pat], if any, is replaced. *)
Fixpoint replaceFirst (pat rep s : jsstring) : jsstring :=
  if bool_decide (pat `prefix_of` s) then rep ++ drop (length pat) s
  else match s with
       | [] => []
       | c :: s' => c :: replaceFirst pat rep s'
       end.

Definition titleParagraph (name : jsstring) : Paragraph :=
  mkParagraph (Some (replaceFirst (lit ".pdf") [] name)) (Some HEADING_1) [] false.

Definition pageHeading (p : nat) : Paragraph :=
  mkParagraph (Some (lit "Page " ++ decimal (p + 1))) (Some HEADING_2) [] false.

Definition pageBreak : Paragraph := mkParagraph (Some []) None [] true.

(** Body of [for (const line of lines)]. *)
Definition line_step (doc : list Paragraph) (line : list TextItem)
    : list Paragraph :=
  let text := trim (join (lit " ") (Item.str <$> line)) in
  if negb (truthy text) then doc
  else
    let isShort :=
      bool_decide (length text < 60)%nat && bool_decide (length line ≤ 3)%nat in
    doc ++ [mkParagraph None None
              [mkTextRun text isShort (if isShort then 24 else 20)] false].

(** The loop over pages from index [p] on; [npages] is [pages.length]. *)
Fixpoint word_pages (npages p : nat) (pages : list (list TextItem))
    (doc : list Paragraph) : option (list Paragraph) :=
  match pages with
  | [] => Some doc
  | items :: rest =>
      let doc1 := if bool_decide (1 < npages)%nat
                  then doc ++ [pageHeading p] else doc in
      lines ← groupIntoLines items 5;
      let doc2 := foldl line_step doc1 lines in
      let doc3 := if bool_decide (Z.of_nat p < Z.of_nat npages - 1)
                  then doc2 ++ [pageBreak] else doc2 in
      word_pages npages (S p) rest doc3
  end.

(** [docParagraphs] as handed to [new Document]; [name] is [file.name]. *)
Definition convertToWord (name : jsstring) (pages : list (list TextItem))
    : option (list Paragraph) :=
  word_pages (length pages) 0 pages [titleParagraph name].

(** [fileName.replace(/\.pdf$/i, "")] of the [convert] handler: a final
    [.pdf], in either case of each letter, is removed. *)
Definition lower (c : N) : N :=
  (if (65 <=? c) && (c <=? 90) then c + 32 else c)%N.

Definition stripPdfSuffix (name : jsstring) : jsstring :=
  let n := (length name - 4)%nat in
  if bool_decide (lower <$> drop n name = lit ".pdf") then take n name
  else name.

(** ** convertToExcel *)

(** [row[i] = v].  Inside the row the cell is replaced; at [i = row.length]
    the array grows by one.  Beyond that JavaScript leaves holes, which
    read as [undefined]; every reader below treats [undefined] as it
    treats the empty string, which stands for a hole here. *)
Definition row_set (row : list jsstring) (i : nat) (v : jsstring)
    : list jsstring :=
  if bool_decide (i < length row)%nat then <[i:=v]> row
  else row ++ replicate (i - length row) [] ++ [v].

(** [row[col] = row[col] ? row[col] + " " + item.str : item.str] *)
Definition row_step (cols : list Z) (row : list jsstring) (item : TextItem)
    : list jsstring :=
  let col := assignCol (Item.x item) cols in
  match row !! col with
  | Some c =>
      if truthy c then row_set row col (c ++ lit " " ++ Item.str item)
      else row_set row col (Item.str item)
  | None => row_set row col (Item.str item)
  end.

Definition buildRow (cols : list Z) (line : list TextItem) : list jsstring :=
  foldl (row_step cols) (replicate (length cols) []) line.

(** [row.some((c) => c.trim())] *)
Definition nonBlank (row : list jsstring) : bool :=
  existsb (λ c, truthy (trim c)) row.

Definition grid_step (cols : list Z) (grid : list (list jsstring))
    (line : list TextItem) : list (list jsstring) :=
  let row := buildRow cols line in
  if nonBlank row then grid ++ [row] else grid.

(** [Math.min(50, Math.max(10, ...grid.map((r) => (r[ci] || "").length)))] *)
Definition colWidth (grid : list (list jsstring)) (ci : nat) : Z :=
  Z.min 50
    (foldl Z.max 10
       ((λ r, Z.of_nat (length (default [] (r !! ci)))) <$> grid)).

Record Sheet : Type := mkSheet {
  sheetName : jsstring;
  sheetData : list (list jsstring);
  sheetCols : list Z
}.

Definition sheetNameOf (npages p : nat) : jsstring :=
  if bool_decide (1 < npages)%nat then lit "Page " ++ decimal (p + 1)
  else lit "Sheet1".

(** The loop over pages from index [p] on; [wb] is the workbook's list
    of sheets. *)
Fixpoint excel_pages (npages p : nat) (pages : list (list TextItem))
    (wb : list Sheet) : option (list Sheet) :=
  match pages with
  | [] => Some wb
  | items :: rest =>
      lines ← groupIntoLines items 8;
      if bool_decide (length lines = 0%nat)
      then excel_pages npages (S p) rest wb
      else
        let cols := detectColumns lines in
        let grid := foldl (grid_step cols) [] lines in
        let colWidths := colWidth grid <$> seq 0 (length cols) in
        excel_pages npages (S p) rest
          (wb ++ [mkSheet (sheetNameOf npages p) grid colWidths])
  end.

(** The workbook [wb] as the page loop leaves it, which is what
    [convertToExcel] hands to [XLSX.write]; [None] is a [TypeError] raised
    inside the loop.  The write itself belongs to the xlsx library and is
    outside this model: it can still fail on the workbook returned here,
    and does so on a workbook without sheets.  [Some wb] therefore says
    that the sheets were built, not that the conversion succeeded. *)
Definition convertToExcel (pages : list (list TextItem))
    : option (list Sheet) :=
  excel_pages (length pages) 0 pages [].

(** ** The convert handler and its helpers *)

Inductive ConvertMode : Type := word | excel.

(** The download name computed by [convert]. *)
Definition downloadName (mode : ConvertMode) (fileName : jsstring)
    : jsstring :=
  let base := stripPdfSuffix fileName in
  match mode with
  | word => base ++ lit ".docx"
  | excel => base ++ lit "-tables.xlsx"
  end.

(** [x.toFixed(f)] for a quotient [x = num / den] that is not negative and
    that the division computes exactly: [n] is the integer nearest to
    [x * 10^f], the larger one on a tie; its decimal digits are padded
    with zeros to [f + 1] digits and the point goes before the last [f]. *)
Definition toFixed (num den : Z) (f : nat) : jsstring :=
  let n := (2 * num * 10 ^ Z.of_nat f + den) / (2 * den) in
  let m := lit (pretty n) in
  if bool_decide (f = 0%nat) then m
  else
    let m := if bool_decide (length m ≤ f)%nat
             then replicate (f + 1 - length m) 48%N ++ m else m in
    let k := length m in
    take (k - f) m ++ lit "." ++ drop (k - f) m.

(** [formatBytes] of the convert page.  A file size is an integer below
    2^53, and dividing it by 1024 or by 1024 * 1024, powers of two, is
    exact; a size below 1024, negative ones included, is printed as it
    is. *)
Definition formatBytes (bytes : Z) : jsstring :=
  if bool_decide (bytes < 1024) then lit (pretty bytes) ++ lit " B"
  else if bool_decide (bytes < 1024 * 1024)
       then toFixed bytes 1024 1 ++ lit " KB"
       else toFixed bytes (1024 * 1024) 1 ++ lit " MB".

(** ** extractTextItems *)

Section Extraction.
(** Numbers of the page renderer are floating point: their type, rounding
    to the nearest integer and subtraction are taken as given. *)
Context {number : Type} (round : number → Z) (minus : number → number → number).

(** An entry of [content.items]: a text item, with the two components of
    its transform that are read ([transform[4]] and [transform[5]]), or a
    marked-content entry, which has no [str]. *)
Inductive RawItem : Type :=
  | RawText (str : jsstring) (tx4 tx5 width height : number)
  | RawMarked.

(** Body of [for (const item of content.items)]. *)
Definition extract_step (viewportHeight : number) (items : list TextItem)
    (item : RawItem) : list TextItem :=
  match item with
  | RawText s tx4 tx5 w h =>
      if truthy (trim s)
      then items
           ++ [Item.mk s (round tx4) (round (minus viewportHeight tx5))
                 (round w) (round h)]
      else items
  | RawMarked => items
  end.

(** A page of the document is its viewport height and its items. *)
Definition extractPage (page : number * list RawItem) : list TextItem :=
  foldl (extract_step page.1) [] page.2.

Definition extractTextItems (doc : list (number * list RawItem))
    : list (list TextItem) :=
  extractPage <$> doc.
End Extraction.

(** ** Sample data *)

Definition frag (s : string) (x y : Z) : TextItem := Item.mk (lit s) x y 0 0.

Definition frag' (s : string) (x y w h : Z) : TextItem :=
  Item.mk (lit s) x y w h.

(** ** The specification's wording, and predicates for the statements *)

(** The line grouper as the specification words it: [ref] is the first
    fragment of the line being built, [cur] that line, [rest] what is left
    of the sorted sequence.  A new line starts exactly when the fragment's
    [y] differs from that of [ref] by more than the tolerance. *)
Fixpoint walk_lines (tolerance : Z) (ref : TextItem) (cur rest : list TextItem)
    : list (list TextItem) :=
  match rest with
  | [] => [cur]
  | f :: rest' =>
      if bool_decide (tolerance < Z.abs (Item.y f - Item.y ref))
      then cur :: walk_lines tolerance f [f] rest'
      else walk_lines tolerance ref (cur ++ [f]) rest'
  end.

Definition spec_lines (tolerance : Z) (sorted : list TextItem)
    : list (list TextItem) :=
  match sorted with
  | [] => []
  | f :: rest => walk_lines tolerance f [f] rest
  end.

(** The column clustering as the specification words it: [acc] is the
    most recently accepted column; a candidate is accepted exactly when it
    exceeds [acc] by more than 20, and is dropped otherwise. *)
Fixpoint cluster_from (acc : Z) (sorted : list Z) : list Z :=
  match sorted with
  | [] => []
  | x :: rest =>
      if bool_decide (20 < x - acc) then x :: cluster_from x rest
      else cluster_from acc rest
  end.

Definition spec_columns (sorted : list Z) : list Z :=
  match sorted with
  | [] => []
  | x :: rest => x :: cluster_from x rest
  end.

(** Adjacent columns are more than 20 units apart. *)
Definition apart (a b : Z) : Prop := 20 < b - a.

(** Column [i] is nearest to [x], and strictly nearer than every column to
    its left: among equally near columns it is the leftmost. *)
Definition nearest_leftmost (x : Z) (cols : list Z) (i : nat) : Prop :=
  ∃ c, cols !! i = Some c ∧
    ∀ (j : nat) c', cols !! j = Some c' →
      Z.abs (x - c) ≤ Z.abs (x - c') ∧
      ((j < i)%nat → Z.abs (x - c) < Z.abs (x - c')).

(** The fragments of a line that go to column [j]. *)
Definition assignedTo (cols : list Z) (j : nat) (line : list TextItem)
    : list TextItem :=
  filter (λ it, assignCol (Item.x it) cols = j) line.

(** The blocks of the flow output after the title, as the specification
    lists them: per page its heading when the document has more than one
    page, the body blocks of its lines, and a page break unless the page
    is the last.  [p] is the index of the first page of [pages]. *)
Definition pageBody (items : list TextItem) : list Paragraph :=
  foldl line_step []
    (js_sort cmpX <$> spec_lines 5 (js_sort cmpYX items)).

Fixpoint spec_pages (npages p : nat) (pages : list (list TextItem))
    : list Paragraph :=
  match pages with
  | [] => []
  | items :: rest =>
      (if bool_decide (1 < npages)%nat then [pageHeading p] else [])
      ++ pageBody items
      ++ (if bool_decide (S p < npages)%nat then [pageBreak] else [])
      ++ spec_pages npages (S p) rest
  end.

(** Orders on fragments. *)
Definition le_yx (a b : TextItem) : Prop :=
  Item.y a < Item.y b ∨ (Item.y a = Item.y b ∧ Item.x a ≤ Item.x b).

Definition le_x (a b : TextItem) : Prop := Item.x a ≤ Item.x b.

(** Indices of the pages that have fragments, [p] being the index of the
    first page of [pages]. *)
Fixpoint contentPagesFrom (p : nat) (pages : list (list TextItem))
    : list nat :=
  match pages with
  | [] => []
  | items :: rest =>
      if bool_decide (items = []) then contentPagesFrom (S p) rest
      else p :: contentPagesFrom (S p) rest
  end.

Definition contentPages (pages : list (list TextItem)) : list nat :=
  contentPagesFrom 0 pages.

(** ** Predicates and helper definitions for the further properties *)

(** What the walk produces: each run starts with its reference fragment
    and holds fragments within the tolerance of it; the reference of the
    next run is further than the tolerance from it. *)
Definition within (tolerance : Z) (ref f : TextItem) : Prop :=
  Z.abs (Item.y f - Item.y ref) ≤ tolerance.

Inductive grouped (tolerance : Z) : list (list TextItem) → Prop :=
  | grouped_nil : grouped tolerance []
  | grouped_one ref fs :
      Forall (within tolerance ref) fs → grouped tolerance [ref :: fs]
  | grouped_cons ref fs ref' fs' runs :
      Forall (within tolerance ref) fs →
      tolerance < Z.abs (Item.y ref' - Item.y ref) →
      grouped tolerance ((ref' :: fs') :: runs) →
      grouped tolerance ((ref :: fs) :: (ref' :: fs') :: runs).

Definition le_y (a b : TextItem) : Prop := Item.y a ≤ Item.y b.

(** [s] occurs inside [cell]. *)
Definition occursIn (s cell : jsstring) : Prop :=
  ∃ pre suf, cell = pre ++ s ++ suf.

(** The string has a character that is not white space. *)
Definition hasInk (s : jsstring) : Prop :=
  Exists (λ c, isWhiteSpace c = false) s.

Global Instance hasInk_dec s : Decision (hasInk s).
Proof. unfold hasInk. apply _. Defined.

(** The sheet that the body of the page loop builds from the lines of
    page [p]. *)
Definition sheetFor (npages p : nat) (lines : list (list TextItem)) : Sheet :=
  let cols := detectColumns lines in
  let grid := foldl (grid_step cols) [] lines in
  mkSheet (sheetNameOf npages p) grid (colWidth grid <$> seq 0 (length cols)).

Definition pageSheet (npages p : nat) (items : list TextItem) : list Sheet :=
  match groupIntoLines items 8 with
  | Some (l :: ls) => [sheetFor npages p (l :: ls)]
  | _ => []
  end.

Fixpoint spec_sheets (npages p : nat) (pages : list (list TextItem))
    : list Sheet :=
  match pages with
  | [] => []
  | items :: rest => pageSheet npages p items ++ spec_sheets npages (S p) rest
  end.

Definition isHeading (h : HeadingLevel) (b : Paragraph) : Prop :=
  heading b = Some h.

Definition isBreak (b : Paragraph) : Prop := pageBreakBefore b = true.

Global Instance HeadingLevel_eq_dec : EqDecision HeadingLevel.
Proof. solve_decision. Defined.

Global Instance isHeading_dec h b : Decision (isHeading h b).
Proof. unfold isHeading. apply _. Defined.

Global Instance isBreak_dec b : Decision (isBreak b).
Proof. unfold isBreak. apply _. Defined.

(** The block that [line_step] appends for a line it does not skip. *)
Definition lineParagraph (line : list TextItem) : Paragraph :=
  let text := trim (join (lit " ") (Item.str <$> line)) in
  let isShort :=
    bool_decide (length text < 60)%nat && bool_decide (length line ≤ 3)%nat in
  mkParagraph None None
    [mkTextRun text isShort (if isShort then 24 else 20)] false.

Definition digit (d : N) : N := N_of_ascii (pretty_N_char d).

(** The texts of the text items among the entries of a page. *)
Definition rawTexts {number : Type} (content : list (@RawItem number))
    : list jsstring :=
  omap (λ item, match item with
                | RawText s _ _ _ _ => Some s
                | RawMarked => None
                end) content.

(** * Properties *)

(** ** The sort *)

Section SortFacts.
Context {A : Type} (cmp : A → A → Z).

Lemma sort_insert_perm a l : sort_insert cmp a l ≡ₚ a :: l.
Proof.
  induction l as [|b l IH]; simpl; [done|].
  destruct (cmp a b <=? 0); [done|].
  rewrite IH. apply perm_swap.
Qed.

Lemma js_sort_perm l : js_sort cmp l ≡ₚ l.
Proof.
  induction l as [|a l IH]; simpl; [done|].
  rewrite sort_insert_perm. by f_equiv.
Qed.

Lemma js_sort_elem_of a l : a ∈ js_sort cmp l ↔ a ∈ l.
Proof. by rewrite js_sort_perm. Qed.

Lemma js_sort_nil_inv l : js_sort cmp l = [] → l = [].
Proof.
  intros H. apply Permutation_nil_r. rewrite <- H. symmetry. apply js_sort_perm.
Qed.

(** Stability: elements that compare equal to one another come out in
    the order they went in. *)
Lemma sort_insert_filter (P : A → Prop) `{!∀ a, Decision (P a)} a l :
  (∀ a b, P a → P b → cmp a b ≤ 0) →
  filter P (sort_insert cmp a l) = filter P (a :: l).
Proof.
  intros Heq. induction l as [|b l IH]; simpl; [done|].
  destruct (Z.leb_spec (cmp a b) 0) as [Hab|Hab]; [done|].
  rewrite (filter_cons P b), IH, !filter_cons.
  destruct (decide (P b)) as [Hb|Hb], (decide (P a)) as [Ha|Ha]; try done.
  specialize (Heq a b Ha Hb). lia.
Qed.

Lemma js_sort_stable (P : A → Prop) `{!∀ a, Decision (P a)} l :
  (∀ a b, P a → P b → cmp a b ≤ 0) →
  filter P (js_sort cmp l) = filter P l.
Proof.
  intros Heq. induction l as [|a l IH]; simpl; [done|].
  rewrite sort_insert_filter by done. by rewrite !filter_cons, IH.
Qed.

(** Sortedness, for any transitive relation that the comparator decides. *)
Context (R : relation A) `{!Transitive R}.
Hypothesis cmp_le : ∀ a b, cmp a b ≤ 0 → R a b.
Hypothesis cmp_gt : ∀ a b, 0 < cmp a b → R b a.

Lemma sort_insert_sorted a l :
  StronglySorted R l → StronglySorted R (sort_insert cmp a l).
Proof.
  induction 1 as [|b l Hl IH Hb]; simpl.
  - repeat constructor.
  - destruct (Z.leb_spec (cmp a b) 0) as [Hab|Hab].
    + apply cmp_le in Hab. constructor; [by constructor|].
      constructor; [done|].
      eapply Forall_impl; [exact Hb|]. intros c Hc. by transitivity b.
    + apply cmp_gt in Hab. constructor; [done|].
      rewrite sort_insert_perm. by constructor.
Qed.

Lemma js_sort_sorted l : StronglySorted R (js_sort cmp l).
Proof.
  induction l as [|a l IH]; simpl; [constructor|].
  by apply sort_insert_sorted.
Qed.

(** A list already in order is left as it is. *)
Lemma js_sort_id l :
  StronglySorted (λ a b, cmp a b ≤ 0) l → js_sort cmp l = l.
Proof.
  induction 1 as [|a l Hl IH Ha]; simpl; [done|].
  rewrite IH. destruct Ha as [|b l' Hab _]; simpl; [done|].
  by destruct (Z.leb_spec (cmp a b) 0); [|lia].
Qed.
End SortFacts.

Global Instance le_yx_trans : Transitive le_yx.
Proof. unfold le_yx. intros a b c ??. lia. Qed.

Global Instance le_x_trans : Transitive le_x.
Proof. unfold le_x. intros a b c ??. lia. Qed.

Lemma sortYX_sorted items : StronglySorted le_yx (js_sort cmpYX items).
Proof.
  apply js_sort_sorted; [apply _|..]; unfold cmpYX, le_yx; intros a b;
    destruct (Z.eqb_spec (Item.y a - Item.y b) 0); lia.
Qed.

Lemma sortX_sorted line : StronglySorted le_x (js_sort cmpX line).
Proof.
  apply js_sort_sorted; [apply _|..]; unfold cmpX, le_x; intros a b; lia.
Qed.

(** ** The line grouper *)

Lemma group_loop_walk tolerance fin ref cur rest :
  group_loop tolerance (fin ++ [ref :: cur]) rest
  = Some (fin ++ walk_lines tolerance ref (ref :: cur) rest).
Proof.
  revert fin ref cur.
  induction rest as [|f rest IH]; intros fin ref cur; simpl; [done|].
  unfold group_step. rewrite last_snoc. simpl.
  rewrite length_app, Nat.add_comm. simpl.
  rewrite <- (Nat.add_0_r (length fin)), alter_app_r. simpl.
  repeat case_bool_decide; try lia; simpl.
  - apply (IH fin ref (cur ++ [f])).
  - rewrite (IH (fin ++ [ref :: cur]) f []).
    by rewrite <- (assoc_L (++)).
Qed.

Lemma group_loop_spec tolerance sorted :
  group_loop tolerance [] sorted = Some (spec_lines tolerance sorted).
Proof.
  destruct sorted as [|f rest]; [done|].
  simpl. apply (group_loop_walk tolerance [] f [] rest).
Qed.

Lemma groupIntoLines_spec items tolerance :
  groupIntoLines items tolerance
  = Some (js_sort cmpX <$> spec_lines tolerance (js_sort cmpYX items)).
Proof. unfold groupIntoLines. simpl. by rewrite group_loop_spec. Qed.

Lemma walk_lines_concat tolerance ref cur rest :
  mjoin (walk_lines tolerance ref cur rest) = cur ++ rest.
Proof.
  revert ref cur. induction rest as [|f rest IH]; intros ref cur; simpl.
  - by rewrite !app_nil_r.
  - case_bool_decide; simpl; rewrite IH; [done|].
    by rewrite <- (assoc_L (++)).
Qed.

Lemma spec_lines_concat tolerance sorted :
  mjoin (spec_lines tolerance sorted) = sorted.
Proof.
  destruct sorted as [|f rest]; [done|]. simpl. by rewrite walk_lines_concat.
Qed.

Lemma walk_lines_nonempty tolerance ref cur rest :
  cur ≠ [] → Forall (λ l, l ≠ []) (walk_lines tolerance ref cur rest).
Proof.
  revert ref cur. induction rest as [|f rest IH]; intros ref cur Hcur; simpl.
  - by constructor.
  - case_bool_decide.
    + constructor; [done|]. by apply IH.
    + apply IH. by destruct cur.
Qed.

Lemma spec_lines_nonempty tolerance sorted :
  Forall (λ l, l ≠ []) (spec_lines tolerance sorted).
Proof.
  destruct sorted as [|f rest]; [constructor|]. by apply walk_lines_nonempty.
Qed.

Lemma groupIntoLines_nonempty items tolerance lines :
  groupIntoLines items tolerance = Some lines → Forall (λ l, l ≠ []) lines.
Proof.
  rewrite groupIntoLines_spec. intros [= <-].
  apply Forall_fmap. eapply Forall_impl; [apply spec_lines_nonempty|].
  intros l Hl Hs. simpl in Hs. by apply js_sort_nil_inv in Hs.
Qed.

Lemma groupIntoLines_nil_iff items tolerance :
  groupIntoLines items tolerance = Some [] ↔ items = [].
Proof.
  rewrite groupIntoLines_spec. split.
  - intros [= H]. apply fmap_nil_inv in H.
    apply (js_sort_nil_inv cmpYX).
    by rewrite <- (spec_lines_concat tolerance (js_sort cmpYX items)), H.
  - by intros ->.
Qed.

Lemma join_sorted_perm {A} (cmp : A → A → Z) (ls : list (list A)) :
  mjoin (js_sort cmp <$> ls) ≡ₚ mjoin ls.
Proof.
  induction ls as [|l ls IH]; [done|].
  rewrite fmap_cons. simpl. by rewrite (js_sort_perm cmp l), IH.
Qed.

(** In a list of lists whose concatenation is sorted, an element of an
    earlier list is below every element of a later one. *)
Lemma sorted_join_cross {A} (R : relation A) (ls : list (list A)) :
  StronglySorted R (mjoin ls) →
  ∀ (i j : nat) l1 l2 a b, (i < j)%nat →
    ls !! i = Some l1 → ls !! j = Some l2 → a ∈ l1 → b ∈ l2 → R a b.
Proof.
  induction ls as [|l ls IH]; intros Hs i j l1 l2 a b Hij H1 H2 Ha Hb.
  { by rewrite lookup_nil in H1. }
  simpl in Hs. destruct j as [|j]; [lia|]. simpl in H2.
  destruct i as [|i]; simpl in H1.
  - injection H1 as ->.
    eapply StronglySorted_app_1_elem_of; [exact Hs|done|].
    apply list_elem_of_join. exists l2. split; [done|].
    by eapply list_elem_of_lookup_2.
  - apply StronglySorted_app_1_r in Hs.
    eapply (IH Hs i j); eauto. lia.
Qed.

Lemma groupIntoLines_perm items tolerance lines :
  groupIntoLines items tolerance = Some lines → mjoin lines ≡ₚ items.
Proof.
  rewrite groupIntoLines_spec. intros [= <-].
  by rewrite join_sorted_perm, spec_lines_concat, js_sort_perm.
Qed.

Lemma groupIntoLines_lines_sorted items tolerance lines :
  groupIntoLines items tolerance = Some lines →
  Forall (StronglySorted le_x) lines.
Proof.
  rewrite groupIntoLines_spec. intros [= <-].
  apply Forall_fmap, Forall_true. intros l. apply sortX_sorted.
Qed.

(** C1. For every list of fragments and every tolerance, [groupIntoLines]
    sorts the fragments by [y] ascending, then [x] ascending, and walks
    that order as [spec_lines] words it: a new line starts exactly when
    the fragment's [y] differs from the [y] of the first fragment of the
    line being built by more than the tolerance, and the fragment is
    appended to that line otherwise (the lines found are returned each
    sorted by [x]).  Fragments Hello (10,10) and World (60,11) at
    tolerance 5 form one line; fragments A (10,10) and B (10,50) form
    two. *)
Theorem groupIntoLines_walks_sorted_order :
  (∀ items tolerance,
      let sorted := js_sort cmpYX items in
      sorted ≡ₚ items ∧ StronglySorted le_yx sorted ∧
      groupIntoLines items tolerance
      = Some (js_sort cmpX <$> spec_lines tolerance sorted))
  ∧ groupIntoLines [frag "Hello" 10 10; frag "World" 60 11] 5
    = Some [[frag "Hello" 10 10; frag "World" 60 11]]
  ∧ groupIntoLines [frag "A" 10 10; frag "B" 10 50] 5
    = Some [[frag "A" 10 10]; [frag "B" 10 50]].
Proof.
  split; [|split; reflexivity].
  intros items tolerance sorted. subst sorted.
  split; [apply js_sort_perm|].
  split; [apply sortYX_sorted|apply groupIntoLines_spec].
Qed.

(** C2, as amended.  For every list of fragments and every tolerance the
    returned lines, flattened, are a permutation of the input; each
    returned line is sorted by ascending [x]; the lines are, each sorted
    by [x], consecutive runs of the input in y-then-x order, so that
    every fragment of an earlier line has a [y] no greater than any
    fragment of a later line. *)
Theorem groupIntoLines_partitions_input items tolerance :
  ∃ runs,
    let lines := js_sort cmpX <$> runs in
    groupIntoLines items tolerance = Some lines ∧
    mjoin lines ≡ₚ items ∧
    Forall (StronglySorted le_x) lines ∧
    mjoin runs = js_sort cmpYX items ∧
    StronglySorted le_yx (mjoin runs) ∧
    (∀ (i j : nat) l1 l2 a b, (i < j)%nat →
       lines !! i = Some l1 → lines !! j = Some l2 → a ∈ l1 → b ∈ l2 →
       Item.y a ≤ Item.y b).
Proof.
  exists (spec_lines tolerance (js_sort cmpYX items)). simpl.
  pose proof (spec_lines_concat tolerance (js_sort cmpYX items)) as Hcat.
  pose proof (sortYX_sorted items) as Hsorted.
  pose proof (groupIntoLines_spec items tolerance) as Hrun.
  split; [done|].
  split; [by eapply groupIntoLines_perm|].
  split; [by eapply groupIntoLines_lines_sorted|].
  split; [done|]. split; [by rewrite Hcat|].
  intros i j l1 l2 a b Hij H1 H2 Ha Hb.
  apply list_lookup_fmap_Some in H1 as (r1 & -> & H1).
  apply list_lookup_fmap_Some in H2 as (r2 & -> & H2).
  apply js_sort_elem_of in Ha, Hb.
  rewrite <- Hcat in Hsorted.
  pose proof (sorted_join_cross _ _ Hsorted i j r1 r2 a b Hij H1 H2 Ha Hb) as Hle.
  unfold le_yx in Hle. lia.
Qed.

(** C2 as stated fails: fragments a (60,10) and b (10,11) share a line at
    tolerance 5, the line is returned sorted by [x], and the flattened
    result has [y] 11 before [y] 10. *)
Lemma groupIntoLines_flattened_not_yx_sorted :
  groupIntoLines [frag "a" 60 10; frag "b" 10 11] 5
  = Some [[frag "b" 10 11; frag "a" 60 10]]
  ∧ ¬ StronglySorted le_yx (mjoin [[frag "b" 10 11; frag "a" 60 10]]).
Proof.
  split; [reflexivity|].
  intros H. apply StronglySorted_cons in H as [H _].
  apply Forall_cons in H as [H _]. unfold le_yx in H. simpl in H. lia.
Qed.

(** ** Column detection *)

Lemma foldl_set_add_elem_of seen l v :
  v ∈ foldl set_add seen l ↔ v ∈ seen ∨ v ∈ l.
Proof.
  revert seen. induction l as [|a l IH]; intros seen; simpl.
  - rewrite elem_of_nil. tauto.
  - rewrite IH, elem_of_cons. unfold set_add.
    case_bool_decide as Ha.
    + split; [tauto|]. intros [?|[->|?]]; tauto.
    + rewrite elem_of_app, list_elem_of_singleton. tauto.
Qed.

Lemma foldl_set_add_NoDup seen l : NoDup seen → NoDup (foldl set_add seen l).
Proof.
  revert seen. induction l as [|a l IH]; intros seen Hs; simpl; [done|].
  apply IH. unfold set_add. case_bool_decide; [done|].
  apply NoDup_app. split; [done|]. split; [|apply NoDup_singleton].
  intros v Hv ->%list_elem_of_singleton. done.
Qed.

Lemma distinct_elem_of l v : v ∈ distinct l ↔ v ∈ l.
Proof.
  unfold distinct. rewrite foldl_set_add_elem_of, elem_of_nil. tauto.
Qed.

Lemma distinct_NoDup l : NoDup (distinct l).
Proof. apply foldl_set_add_NoDup, NoDup_nil_2. Qed.

Lemma sortNum_sorted l : StronglySorted Z.le (js_sort cmpNum l).
Proof.
  apply js_sort_sorted; [apply _|..]; unfold cmpNum; intros a b; lia.
Qed.

Lemma sorted_NoDup_lt l :
  NoDup l → StronglySorted Z.le l → StronglySorted Z.lt l.
Proof.
  induction 2 as [|a l Hl IH Ha]; [constructor|].
  apply NoDup_cons in H as [Hni Hnd].
  constructor; [by apply IH|].
  apply Forall_forall. intros b Hb.
  rewrite Forall_forall in Ha. specialize (Ha b Hb).
  assert (a ≠ b) by (by intros ->). lia.
Qed.

Lemma sorted_distinct_lt l :
  StronglySorted Z.lt (js_sort cmpNum (distinct l)).
Proof.
  apply sorted_NoDup_lt; [|apply sortNum_sorted].
  rewrite js_sort_perm. apply distinct_NoDup.
Qed.

Lemma foldl_col_step pre acc rest :
  foldl col_step (pre ++ [acc]) rest = pre ++ acc :: cluster_from acc rest.
Proof.
  revert pre acc. induction rest as [|v rest IH]; intros pre acc; simpl.
  - done.
  - unfold col_step at 2. rewrite last_snoc.
    case_bool_decide.
    + rewrite (IH (pre ++ [acc]) v). by rewrite <- (assoc_L (++)).
    + apply IH.
Qed.

Lemma detectColumns_spec lines :
  detectColumns lines
  = spec_columns (js_sort cmpNum (distinct (xPositions lines))).
Proof.
  unfold detectColumns.
  destruct (js_sort cmpNum (distinct (xPositions lines))) as [|v rest]; [done|].
  simpl. apply (foldl_col_step [] v rest).
Qed.

Lemma cluster_from_apart acc rest :
  HdRel apart acc (cluster_from acc rest)
  ∧ Sorted apart (cluster_from acc rest).
Proof.
  revert acc. induction rest as [|v rest IH]; intros acc; simpl.
  - split; constructor.
  - case_bool_decide.
    + split; [by constructor|]. constructor; apply IH.
    + apply IH.
Qed.

Lemma spec_columns_apart sorted : Sorted apart (spec_columns sorted).
Proof.
  destruct sorted as [|v rest]; simpl; [constructor|].
  constructor; apply cluster_from_apart.
Qed.

Global Instance apart_trans : Transitive apart.
Proof. unfold apart. intros a b c ??. lia. Qed.

Lemma StronglySorted_weaken {A} (R R' : relation A) l :
  (∀ a b, R a b → R' a b) → StronglySorted R l → StronglySorted R' l.
Proof.
  intros HR. induction 1 as [|a l Hl IH Ha]; constructor; [done|].
  eapply Forall_impl; [exact Ha|]. auto.
Qed.

Lemma sorted_lt_NoDup l : StronglySorted Z.lt l → NoDup l.
Proof.
  induction 1 as [|a l Hl IH Ha]; [apply NoDup_nil_2|].
  apply NoDup_cons. split; [|done].
  intros Hin. rewrite Forall_forall in Ha. specialize (Ha a Hin). lia.
Qed.

Lemma apart_sorted_lt cols : Sorted apart cols → StronglySorted Z.lt cols.
Proof.
  intros H. apply Sorted_StronglySorted in H; [|apply _].
  eapply StronglySorted_weaken; [|exact H]. unfold apart. intros; lia.
Qed.

Lemma cluster_from_id acc l : Sorted apart (acc :: l) → cluster_from acc l = l.
Proof.
  revert acc. induction l as [|v l IH]; intros acc H; simpl; [done|].
  apply Sorted_inv in H as [H Hhd]. apply HdRel_inv in Hhd.
  unfold apart in Hhd. rewrite bool_decide_eq_true_2 by done.
  f_equal. by apply IH.
Qed.

Lemma spec_columns_id cols : Sorted apart cols → spec_columns cols = cols.
Proof.
  destruct cols as [|c cols]; simpl; [done|].
  intros H. f_equal. by apply cluster_from_id.
Qed.

Lemma cluster_from_subseteq acc rest : cluster_from acc rest ⊆ rest.
Proof.
  revert acc. induction rest as [|v rest IH]; intros acc; simpl; [done|].
  case_bool_decide; [|by apply list_subseteq_cons].
  intros c [->|Hc]%elem_of_cons; [left|right; by eapply IH].
Qed.

Lemma detectColumns_subseteq lines : detectColumns lines ⊆ xPositions lines.
Proof.
  rewrite detectColumns_spec. intros c Hc.
  apply distinct_elem_of, (js_sort_elem_of cmpNum).
  destruct (js_sort cmpNum (distinct (xPositions lines))) as [|v rest];
    simpl in Hc; [done|].
  apply elem_of_cons in Hc as [->|Hc]; [left|right].
  by eapply cluster_from_subseteq.
Qed.

(** The sorted distinct values depend on the set of values only. *)
Lemma sorted_distinct_perm l1 l2 :
  (∀ v, v ∈ l1 ↔ v ∈ l2) → NoDup l2 →
  js_sort cmpNum (distinct l1) ≡ₚ l2.
Proof.
  intros Hset Hnd. rewrite js_sort_perm.
  apply NoDup_Permutation; [apply distinct_NoDup|done|].
  intros v. by rewrite distinct_elem_of.
Qed.

Lemma xPositions_elem_of lines v :
  v ∈ xPositions lines ↔
  ∃ line it, line ∈ lines ∧ it ∈ line ∧ Item.x it = v.
Proof.
  unfold xPositions. rewrite list_elem_of_bind. split.
  - intros (line & Hv & Hline).
    apply list_elem_of_fmap in Hv as (it & -> & Hit). by exists line, it.
  - intros (line & it & Hline & Hit & <-). exists line.
    split; [by apply list_elem_of_fmap_2|done].
Qed.

(** C3. For every page, [detectColumns] takes the distinct x-positions of
    the fragments of all lines (a value is among them exactly when some
    fragment of some line has it as its [x]) in strictly ascending order
    and walks them as [spec_columns] words it: the first is a column, and
    a later candidate is a new column exactly when it exceeds the most
    recently accepted column by more than 20; a column is always the [x]
    of a fragment of the page, never an average.  For x-positions 10, 15,
    80, 83 the columns are 10 and 80. *)
Theorem detectColumns_clusters_sorted_positions :
  (∀ lines,
      let sorted := js_sort cmpNum (distinct (xPositions lines)) in
      (∀ v, v ∈ xPositions lines ↔
         ∃ line it, line ∈ lines ∧ it ∈ line ∧ Item.x it = v) ∧
      (∀ v, v ∈ sorted ↔
         ∃ line it, line ∈ lines ∧ it ∈ line ∧ Item.x it = v) ∧
      (∀ v, v ∈ sorted ↔ v ∈ xPositions lines) ∧
      StronglySorted Z.lt sorted ∧
      detectColumns lines = spec_columns sorted ∧
      detectColumns lines ⊆ xPositions lines ∧
      (∀ c, c ∈ detectColumns lines →
         ∃ line it, line ∈ lines ∧ it ∈ line ∧ Item.x it = c))
  ∧ xPositions [[frag "a" 10 1; frag "b" 15 1]; [frag "c" 80 9; frag "d" 83 9]]
    = [10; 15; 80; 83]
  ∧ detectColumns
      [[frag "a" 10 1; frag "b" 15 1]; [frag "c" 80 9; frag "d" 83 9]]
    = [10; 80].
Proof.
  split; [|split; reflexivity].
  intros lines sorted. subst sorted.
  assert (∀ v, v ∈ js_sort cmpNum (distinct (xPositions lines))
               ↔ v ∈ xPositions lines) as Hsorted.
  { intros v. by rewrite js_sort_elem_of, distinct_elem_of. }
  split; [apply xPositions_elem_of|].
  split; [intros v; by rewrite Hsorted, xPositions_elem_of|].
  split; [done|].
  split; [apply sorted_distinct_lt|].
  split; [apply detectColumns_spec|].
  split; [apply detectColumns_subseteq|].
  intros c Hc. by apply xPositions_elem_of, detectColumns_subseteq.
Qed.

Lemma detectColumns_apart lines : Sorted apart (detectColumns lines).
Proof. rewrite detectColumns_spec. apply spec_columns_apart. Qed.

(** C7. For every input, the column list returned by [detectColumns] is
    strictly increasing and any two adjacent columns differ by more than
    20 units. *)
Theorem detectColumns_increasing_apart lines :
  StronglySorted Z.lt (detectColumns lines)
  ∧ Sorted (λ a b, 20 < b - a) (detectColumns lines).
Proof.
  split; [apply apart_sorted_lt|]; apply detectColumns_apart.
Qed.

(** C8. Column detection is idempotent: for every page, a page whose set
    of x-positions is the set of detected columns has the same columns
    detected again. *)
Theorem detectColumns_idempotent lines lines' :
  (∀ v, v ∈ xPositions lines' ↔ v ∈ detectColumns lines) →
  detectColumns lines' = detectColumns lines.
Proof.
  intros Hset.
  pose proof (detectColumns_apart lines) as Hap.
  pose proof (apart_sorted_lt _ Hap) as Hlt.
  rewrite (detectColumns_spec lines').
  assert (js_sort cmpNum (distinct (xPositions lines')) = detectColumns lines)
    as ->; [|by apply spec_columns_id].
  apply (StronglySorted_unique Z.le).
  - apply sortNum_sorted.
  - eapply StronglySorted_weaken; [|exact Hlt]. intros a b; lia.
  - apply sorted_distinct_perm; [done|]. by apply sorted_lt_NoDup.
Qed.

Lemma detectColumns_idempotent_witness :
  let lines :=
    [[frag "a" 10 1; frag "b" 15 1]; [frag "c" 80 9; frag "d" 83 9]] in
  let lines' := [[frag "p" 80 3; frag "q" 10 7]] in
  (∀ v, v ∈ xPositions lines' ↔ v ∈ detectColumns lines) ∧
  detectColumns lines' = detectColumns lines.
Proof.
  intros lines lines'.
  assert (∀ v, v ∈ xPositions lines' ↔ v ∈ detectColumns lines) as Hset.
  { intros v. change (v ∈ [80; 10] ↔ v ∈ [10; 80]).
    rewrite !elem_of_cons, !elem_of_nil. tauto. }
  split; [exact Hset|].
  exact (detectColumns_idempotent lines lines' Hset).
Defined.

(** ** Nearest-column assignment *)

(** What the loop of [assignCol] maintains after scanning [pre]. *)
Definition scanned (x : Z) (pre : list Z) (best : nat) (bestDist : option Z)
    : Prop :=
  match bestDist with
  | None => pre = []
  | Some d =>
      ∃ c, d = Z.abs (x - c) ∧ pre !! best = Some c ∧
        ∀ (j : nat) c', pre !! j = Some c' →
          d ≤ Z.abs (x - c') ∧ ((j < best)%nat → d < Z.abs (x - c'))
  end.

Lemma assignCol_loop_scanned x rest pre best bestDist :
  scanned x pre best bestDist → pre ++ rest ≠ [] →
  nearest_leftmost x (pre ++ rest)
    (assignCol_loop x rest (length pre) best bestDist).
Proof.
  revert pre best bestDist.
  induction rest as [|c rest IH]; intros pre best bestDist Hinv Hne; simpl.
  - rewrite app_nil_r in *. destruct bestDist as [d|]; simpl in Hinv; [|done].
    destruct Hinv as (c & -> & Hc & Hall). by exists c.
  - replace (pre ++ c :: rest) with ((pre ++ [c]) ++ rest)
      by (by rewrite <- (assoc_L (++))).
    replace (S (length pre)) with (length (pre ++ [c]))
      by (rewrite length_app; simpl; lia).
    assert ((pre ++ [c]) ++ rest ≠ []) as Hne' by (by destruct pre).
    destruct (dist_lt (Z.abs (x - c)) bestDist) eqn:Hlt.
    + apply IH; [|done]. exists c. split; [done|].
      split; [apply list_lookup_middle; done|].
      intros j c' Hj. apply lookup_snoc_Some in Hj as [[Hj Hc']|[-> ->]].
      * destruct bestDist as [d|]; simpl in Hinv, Hlt.
        -- destruct Hinv as (c0 & -> & _ & Hall).
           destruct (Hall j c' Hc') as [Hle _]. lia.
        -- subst pre. simpl in Hj. lia.
      * split; lia.
    + destruct bestDist as [d|]; simpl in Hlt; [|done].
      destruct Hinv as (c0 & -> & Hc0 & Hall).
      apply IH; [|done]. exists c0. split; [done|].
      split; [by apply lookup_app_l_Some|].
      intros j c' Hj. apply lookup_snoc_Some in Hj as [[Hj Hc']|[-> ->]].
      * by apply Hall.
      * apply lookup_lt_Some in Hc0. split; lia.
Qed.

Lemma assignCol_nearest x cols :
  cols ≠ [] → nearest_leftmost x cols (assignCol x cols).
Proof. intros Hne. by apply (assignCol_loop_scanned x cols [] 0%nat None). Qed.

Lemma assignCol_lt x cols : cols ≠ [] → (assignCol x cols < length cols)%nat.
Proof.
  intros Hne. destruct (assignCol_nearest x cols Hne) as (c & Hc & _).
  by eapply lookup_lt_Some.
Qed.

Lemma assignCol_nil x : assignCol x [] = 0%nat.
Proof. done. Qed.

Lemma xPositions_nil_inv lines :
  Forall (λ l, l ≠ []) lines → xPositions lines = [] → lines = [].
Proof.
  destruct 1 as [|l lines Hl _]; [done|].
  unfold xPositions. simpl. destruct l; [done|]. by rewrite fmap_cons.
Qed.

Lemma detectColumns_nil_inv lines :
  Forall (λ l, l ≠ []) lines → detectColumns lines = [] → lines = [].
Proof.
  intros Hne. rewrite detectColumns_spec. intros H.
  apply xPositions_nil_inv; [done|].
  destruct (js_sort cmpNum (distinct (xPositions lines))) as [|v rest] eqn:Hs;
    [|done].
  apply js_sort_nil_inv in Hs.
  apply elem_of_nil_inv. intros v Hv.
  apply distinct_elem_of in Hv. rewrite Hs in Hv. by apply elem_of_nil in Hv.
Qed.

(** ** Rows of the grid *)

Lemma join_snoc sep l s :
  l ≠ [] → join sep (l ++ [s]) = join sep l ++ sep ++ s.
Proof.
  induction l as [|a l IH]; intros Hne; [done|].
  destruct l as [|b l]; [done|].
  change (a ++ sep ++ join sep ((b :: l) ++ [s])
          = (a ++ sep ++ join sep (b :: l)) ++ sep ++ s).
  rewrite IH by done. by rewrite <- !(assoc_L (++)).
Qed.

Lemma join_nonempty sep l :
  l ≠ [] → Forall (λ s, s ≠ []) l → join sep l ≠ [].
Proof.
  destruct 2 as [|a l Ha _]; [done|].
  destruct l; simpl; [done|]. by destruct a.
Qed.

Lemma Forall_list_filter {A} (P Q : A → Prop) `{!∀ a, Decision (Q a)} l :
  Forall P l → Forall P (filter Q l).
Proof.
  rewrite !Forall_forall. intros HP a [_ Ha]%list_elem_of_filter.
  by apply HP.
Qed.

Lemma StronglySorted_list_filter {A} (R : relation A) (Q : A → Prop)
    `{!∀ a, Decision (Q a)} l :
  StronglySorted R l → StronglySorted R (filter Q l).
Proof.
  induction 1 as [|a l Hl IH Ha]; [constructor|].
  rewrite filter_cons. destruct (decide (Q a)); [|done].
  constructor; [done|]. by apply Forall_list_filter.
Qed.

Lemma truthy_true s : truthy s = true ↔ s ≠ [].
Proof. by destruct s. Qed.

Lemma buildRow_snoc cols line it :
  buildRow cols (line ++ [it]) = row_step cols (buildRow cols line) it.
Proof. unfold buildRow. by rewrite foldl_snoc. Qed.

Lemma row_set_in_range row i v :
  (i < length row)%nat → row_set row i v = <[i:=v]> row.
Proof. intros Hi. unfold row_set. by rewrite bool_decide_eq_true_2. Qed.

(** No write of [buildRow] is out of range: the row keeps the length it
    was allocated with. *)
Lemma buildRow_length cols line :
  cols ≠ [] → length (buildRow cols line) = length cols.
Proof.
  intros Hne. induction line as [|it line IH] using rev_ind.
  - apply length_replicate.
  - rewrite buildRow_snoc. unfold row_step.
    pose proof (assignCol_lt (Item.x it) cols Hne) as Hlt.
    rewrite <- IH in Hlt.
    destruct (buildRow cols line !! _) as [c|]; [destruct (truthy c)|];
      rewrite row_set_in_range, length_insert by done; done.
Qed.

Lemma buildRow_cells cols line (j : nat) :
  cols ≠ [] → Forall (λ it, Item.str it ≠ []) line → (j < length cols)%nat →
  buildRow cols line !! j
  = Some (join (lit " ") (Item.str <$> assignedTo cols j line)).
Proof.
  intros Hne Hstr Hj. induction line as [|it line IH] using rev_ind.
  - by apply lookup_replicate_2.
  - apply Forall_app in Hstr as [Hstr _].
    specialize (IH Hstr).
    pose proof (buildRow_length cols line Hne) as Hlen.
    pose proof (assignCol_lt (Item.x it) cols Hne) as Hlt.
    rewrite buildRow_snoc. unfold row_step, assignedTo in *.
    rewrite filter_app, fmap_app.
    destruct (decide (assignCol (Item.x it) cols = j)) as [Heq|Hneq].
    + rewrite filter_singleton_True by done. rewrite Heq, IH.
      destruct (filter _ line) as [|it0 its] eqn:Hfil.
      * simpl. rewrite row_set_in_range by lia.
        by rewrite list_lookup_insert_eq by lia.
      * assert (join (lit " ") (Item.str <$> it0 :: its) ≠ []) as Hjoin.
        { apply join_nonempty; [done|]. apply Forall_fmap.
          rewrite <- Hfil. by apply Forall_list_filter. }
        apply truthy_true in Hjoin as Htr. rewrite Htr.
        rewrite row_set_in_range by lia.
        rewrite list_lookup_insert_eq by lia.
        change (Item.str <$> [it]) with [Item.str it].
        by rewrite join_snoc by done.
    + rewrite filter_singleton_False by done. rewrite app_nil_r.
      destruct (buildRow cols line !! assignCol (Item.x it) cols) as [c|];
        [destruct (truthy c)|];
        rewrite row_set_in_range, list_lookup_insert_ne by (done || lia);
        done.
Qed.

(** C5. During grid construction (lines grouped at tolerance 8, columns
    detected from them, fragments with non-empty text as the extractor
    delivers them), every fragment of a line is assigned to the column
    nearest to its [x], the leftmost one when two are equally near; and
    the cell of column [j] holds the texts of the fragments assigned to
    [j], in the line's ascending-x order, joined by single spaces. *)
Theorem grid_cells_nearest_column items lines line :
  Forall (λ it, Item.str it ≠ []) items →
  groupIntoLines items 8 = Some lines →
  line ∈ lines →
  let cols := detectColumns lines in
  (∀ it, it ∈ line →
     nearest_leftmost (Item.x it) cols (assignCol (Item.x it) cols)) ∧
  (∀ j : nat, (j < length cols)%nat →
     StronglySorted le_x (assignedTo cols j line) ∧
     buildRow cols line !! j
     = Some (join (lit " ") (Item.str <$> assignedTo cols j line))).
Proof.
  intros Hstr Hlines Hline cols.
  pose proof (groupIntoLines_nonempty _ _ _ Hlines) as Hne.
  assert (cols ≠ []) as Hcols.
  { intros Hnil. apply detectColumns_nil_inv in Hnil; [|done].
    rewrite Hnil in Hline. by apply elem_of_nil in Hline. }
  pose proof (groupIntoLines_perm _ _ _ Hlines) as Hperm.
  pose proof (groupIntoLines_lines_sorted _ _ _ Hlines) as Hsorted.
  split; [intros it _; by apply assignCol_nearest|].
  intros j Hj. split.
  - apply StronglySorted_list_filter.
    rewrite Forall_forall in Hsorted. by apply Hsorted.
  - apply buildRow_cells; [done| |done].
    rewrite Forall_forall in Hstr |- *. intros it Hit. apply Hstr.
    rewrite <- Hperm. apply list_elem_of_join. by exists line.
Qed.

Lemma grid_cells_nearest_column_witness :
  let items := [frag "c" 40 10; frag "a" 10 10; frag "b" 25 11] in
  let line := [frag "a" 10 10; frag "b" 25 11; frag "c" 40 10] in
  Forall (λ it, Item.str it ≠ []) items ∧
  groupIntoLines items 8 = Some [line] ∧
  line ∈ [line] ∧
  detectColumns [line] = [10; 40] ∧
  nearest_leftmost 25 [10; 40] 0 ∧
  buildRow (detectColumns [line]) line !! 0%nat = Some (lit "a b").
Proof.
  intros items line.
  assert (Forall (λ it, Item.str it ≠ []) items) as H1
    by (repeat constructor; done).
  assert (groupIntoLines items 8 = Some [line]) as H2 by reflexivity.
  assert (line ∈ [line]) as H3 by left.
  split; [done|]. split; [done|]. split; [done|]. split; [reflexivity|].
  destruct (grid_cells_nearest_column items [line] line H1 H2 H3)
    as [Hnear Hcell].
  split.
  - apply (Hnear (frag "b" 25 11)). right. left.
  - destruct (Hcell 0%nat) as [_ ->]; [vm_compute; lia|reflexivity].
Defined.

(** C10. In table conversion every cell write is in bounds: every line
    produced by [groupIntoLines] is non-empty, so for a page with at
    least one line [detectColumns] returns at least one column, and then
    [assignCol] returns an index below the number of columns for every
    fragment and the row keeps the length it was allocated with.  The
    index returned by [assignCol] is out of range only for an empty
    column list. *)
Theorem cell_writes_in_bounds items tolerance lines :
  groupIntoLines items tolerance = Some lines →
  lines ≠ [] →
  let cols := detectColumns lines in
  Forall (λ l, l ≠ []) lines ∧
  cols ≠ [] ∧
  (∀ x, (assignCol x cols < length cols)%nat) ∧
  (∀ line, length (buildRow cols line) = length cols) ∧
  (∀ x cs, ¬ (assignCol x cs < length cs)%nat ↔ cs = []).
Proof.
  intros Hlines Hne cols.
  pose proof (groupIntoLines_nonempty _ _ _ Hlines) as Hall.
  assert (cols ≠ []) as Hcols.
  { intros Hnil. by apply detectColumns_nil_inv in Hnil. }
  split; [done|]. split; [done|].
  split; [intros x; by apply assignCol_lt|].
  split; [intros line; by apply buildRow_length|].
  intros x cs. split.
  - intros Hout. destruct cs as [|c cs]; [done|].
    exfalso. apply Hout. by apply assignCol_lt.
  - intros ->. simpl. lia.
Qed.

Lemma cell_writes_in_bounds_witness :
  let items := [frag "World" 60 11; frag "Hello" 10 10] in
  let lines := [[frag "Hello" 10 10; frag "World" 60 11]] in
  groupIntoLines items 8 = Some lines ∧ lines ≠ [] ∧
  detectColumns lines ≠ [] ∧
  ∀ x, (assignCol x (detectColumns lines) < length (detectColumns lines))%nat.
Proof.
  intros items lines.
  assert (groupIntoLines items 8 = Some lines) as H1 by reflexivity.
  assert (lines ≠ []) as H2 by done.
  split; [done|]. split; [done|].
  destruct (cell_writes_in_bounds items 8 lines H1 H2) as (_ & H3 & H4 & _).
  by split.
Defined.

(** ** Sheets *)

Lemma nonBlank_Exists row :
  nonBlank row = true → Exists (λ c, trim c ≠ []) row.
Proof.
  unfold nonBlank. rewrite existsb_exists, Exists_exists.
  intros (c & Hin & Hc). exists c. split; [by apply list_elem_of_In|].
  by apply truthy_true.
Qed.

Lemma foldl_grid_step_rows cols lines grid row :
  row ∈ foldl (grid_step cols) grid lines →
  row ∈ grid ∨
  (nonBlank row = true ∧ ∃ line, line ∈ lines ∧ row = buildRow cols line).
Proof.
  revert grid. induction lines as [|line lines IH]; intros grid; simpl.
  - by left.
  - intros [Hin|(Hnb & l & Hl & ->)]%IH.
    + unfold grid_step in Hin.
      destruct (nonBlank (buildRow cols line)) eqn:Hnb; [|by left].
      apply elem_of_app in Hin as [Hin|Hin]; [by left|].
      apply list_elem_of_singleton in Hin as ->.
      right. split; [done|]. exists line. split; [left|done].
    + right. split; [done|]. exists l. split; [by right|done].
Qed.

(** The sheet of a page is built from the lines of that page. *)
Definition sheetOfPage (pages : list (list TextItem)) (s : Sheet) : Prop :=
  ∃ items lines,
    items ∈ pages ∧ groupIntoLines items 8 = Some lines ∧ lines ≠ [] ∧
    sheetData s = foldl (grid_step (detectColumns lines)) [] lines.

Lemma excel_pages_sheets npages pages p wb :
  ∃ sheets,
    excel_pages npages p pages wb = Some (wb ++ sheets) ∧
    sheetName <$> sheets = sheetNameOf npages <$> contentPagesFrom p pages ∧
    Forall (sheetOfPage pages) sheets.
Proof.
  revert p wb. induction pages as [|items rest IH]; intros p wb.
  - exists []. by rewrite app_nil_r.
  - simpl. pose proof (groupIntoLines_nil_iff items 8) as Hnil.
    destruct (groupIntoLines items 8) as [lines|] eqn:Hlines;
      [|by rewrite groupIntoLines_spec in Hlines].
    simpl. case_bool_decide as Hlen.
    + apply nil_length_inv in Hlen as ->.
      rewrite bool_decide_eq_true_2 by (by apply Hnil).
      destruct (IH (S p) wb) as (sheets & -> & Hnames & Hall).
      exists sheets. split; [done|]. split; [done|].
      eapply Forall_impl; [exact Hall|].
      intros s (it & ls & ? & ? & ? & ?). exists it, ls.
      split; [by right|done].
    + assert (lines ≠ []) as Hne by (by intros ->).
      rewrite bool_decide_eq_false_2
        by (intros Hi; apply Hnil in Hi; congruence).
      match goal with |- context [wb ++ [?sh]] => set (sheet := sh) end.
      destruct (IH (S p) (wb ++ [sheet])) as (sheets & -> & Hnames & Hall).
      exists (sheet :: sheets). rewrite <- (assoc_L (++)).
      split; [done|]. split; [by rewrite !fmap_cons, Hnames|].
      constructor.
      * exists items, lines. split; [left|done].
      * eapply Forall_impl; [exact Hall|].
        intros s (it & ls & ? & ? & ? & ?). exists it, ls.
        split; [by right|done].
Qed.

Lemma contentPagesFrom_elem_of pages (p q : nat) :
  q ∈ contentPagesFrom p pages ↔
  ∃ (i : nat) items, q = (p + i)%nat ∧ pages !! i = Some items ∧ items ≠ [].
Proof.
  revert p. induction pages as [|items rest IH]; intros p; simpl.
  - rewrite elem_of_nil. split; [done|]. by intros (i & it & _ & ? & _).
  - case_bool_decide as Hit; [|rewrite elem_of_cons]; rewrite IH; split.
    + intros (i & it & -> & Hi & Hne). exists (S i), it.
      split; [lia|done].
    + intros ([|i] & it & -> & Hi & Hne); simpl in Hi; [congruence|].
      exists i, it. split; [lia|done].
    + intros [->|(i & it & -> & Hi & Hne)].
      * exists 0%nat, items. split; [lia|done].
      * exists (S i), it. split; [lia|done].
    + intros ([|i] & it & -> & Hi & Hne); simpl in Hi.
      * left. lia.
      * right. exists i, it. split; [lia|done].
Qed.

(** C4, as amended.  The sheets are those of the pages that yield lines,
    in page order (a page yields no line exactly when it has no
    fragment).  When the document has exactly one page in all and that
    page has content, the one sheet is named Sheet1.  When the document
    has more than one page in all, every sheet is named Page N with N the
    original 1-based page index, whatever the number of pages with
    content; with three pages of which the second yields no line the
    sheets are Page 1 and Page 3. *)
Theorem convertToExcel_sheet_names pages :
  ∃ sheets,
    convertToExcel pages = Some sheets ∧
    (∀ items, groupIntoLines items 8 = Some [] ↔ items = []) ∧
    (∀ p : nat, p ∈ contentPages pages ↔
       ∃ items, pages !! p = Some items ∧ items ≠ []) ∧
    sheetName <$> sheets = sheetNameOf (length pages) <$> contentPages pages ∧
    (∀ items, pages = [items] → items ≠ [] →
       sheetName <$> sheets = [lit "Sheet1"]) ∧
    ((1 < length pages)%nat →
       sheetName <$> sheets
       = (λ p, lit "Page " ++ decimal (p + 1)) <$> contentPages pages) ∧
    (∀ a b, pages = [a; []; b] → a ≠ [] → b ≠ [] →
       sheetName <$> sheets = [lit "Page 1"; lit "Page 3"]).
Proof.
  destruct (excel_pages_sheets (length pages) pages 0 [])
    as (sheets & Hrun & Hnames & _).
  exists sheets. split; [done|].
  split; [intros items; apply groupIntoLines_nil_iff|].
  split.
  { intros p. unfold contentPages. rewrite contentPagesFrom_elem_of.
    split; [intros (i & it & -> & ? & ?)|intros (it & ? & ?)]; eauto. }
  fold (contentPages pages) in Hnames.
  split; [done|]. rewrite Hnames. split; [|split].
  - intros items -> Hne. unfold contentPages. simpl.
    by rewrite bool_decide_eq_false_2.
  - intros Hlen. apply list_fmap_ext. intros _ p _.
    unfold sheetNameOf. by rewrite bool_decide_eq_true_2.
  - intros a b -> Ha Hb. unfold contentPages. simpl.
    by rewrite !bool_decide_eq_false_2 by done.
Qed.

(** C4 as stated fails: of these two pages exactly one has content, and
    its sheet is named Page 2, not Sheet1. *)
Lemma one_content_page_not_default_name :
  let pages := [[]; [frag "x" 10 10]] in
  contentPages pages = [1%nat] ∧
  ∃ sheets, convertToExcel pages = Some sheets ∧
    sheetName <$> sheets = [lit "Page 2"] ∧
    sheetName <$> sheets ≠ [lit "Sheet1"].
Proof.
  simpl. split; [reflexivity|].
  eexists. split; [reflexivity|]. split; [reflexivity|]. discriminate.
Qed.

(** C6. For every input, no grid produced by table conversion has a row
    all of whose cells are empty after trimming: every row of every sheet
    has a cell whose trimmed text is not empty. *)
Theorem convertToExcel_no_blank_row pages :
  ∃ sheets,
    convertToExcel pages = Some sheets ∧
    Forall (λ s, Forall (λ row, Exists (λ c, trim c ≠ []) row) (sheetData s))
      sheets.
Proof.
  destruct (excel_pages_sheets (length pages) pages 0 [])
    as (sheets & Hrun & _ & Hall).
  exists sheets. split; [done|].
  eapply Forall_impl; [exact Hall|].
  intros s (items & lines & _ & _ & _ & ->).
  apply Forall_forall. intros row Hrow.
  apply foldl_grid_step_rows in Hrow as [Hrow|[Hnb _]].
  - by apply elem_of_nil in Hrow.
  - by apply nonBlank_Exists.
Qed.

(** ** Flow output *)

Lemma foldl_line_step doc lines :
  foldl line_step doc lines = doc ++ foldl line_step [] lines.
Proof.
  revert doc. induction lines as [|line lines IH] using rev_ind; intros doc.
  - by rewrite app_nil_r.
  - rewrite !foldl_snoc, IH. unfold line_step.
    destruct (negb _); [done|]. by rewrite <- (assoc_L (++)).
Qed.

(** A body block is neither a heading nor a page break. *)
Lemma pageBody_plain items :
  Forall (λ b, heading b = None ∧ pageBreakBefore b = false) (pageBody items).
Proof.
  unfold pageBody.
  induction (js_sort cmpX <$> spec_lines 5 (js_sort cmpYX items))
    as [|line lines IH] using rev_ind; [constructor|].
  rewrite foldl_snoc. unfold line_step at 1.
  destruct (negb _); [done|].
  apply Forall_app. split; [done|]. by repeat constructor.
Qed.

Lemma word_pages_spec npages pages p doc :
  word_pages npages p pages doc = Some (doc ++ spec_pages npages p pages).
Proof.
  revert p doc. induction pages as [|items rest IH]; intros p doc; simpl.
  - by rewrite app_nil_r.
  - rewrite groupIntoLines_spec. simpl. rewrite IH. f_equal.
    rewrite foldl_line_step. fold (pageBody items).
    assert (bool_decide (Z.of_nat p < Z.of_nat npages - 1)
            = bool_decide (S p < npages)%nat) as ->.
    { apply bool_decide_ext. lia. }
    repeat case_bool_decide; by rewrite <- ?(assoc_L (++)).
Qed.

(** The part of C9 that holds on every input: one title block at heading
    level 1 comes first, built from the file name; then, page by page,
    the Page N heading when there is more than one page, the body blocks
    and a page break except after the last page. *)
Lemma convertToWord_structure name pages :
  convertToWord name pages
  = Some (titleParagraph name :: spec_pages (length pages) 0 pages)
  ∧ heading (titleParagraph name) = Some HEADING_1
  ∧ text (titleParagraph name) = Some (replaceFirst (lit ".pdf") [] name).
Proof. split; [apply word_pages_spec|done]. Qed.

(** C9, where the code departs from it.  The title is the file name with
    its first ".pdf" removed, wherever that stands and in lower case
    only, while the download name is computed by [stripPdfSuffix]: for
    report.pdf.signed.pdf the title is report.signed.pdf, which still
    carries the extension, and for Report.PDF the title is the whole
    name. *)
Theorem convertToWord_title_keeps_extension :
  convertToWord (lit "report.pdf.signed.pdf") [[frag "Hello" 10 10]]
  = Some [mkParagraph (Some (lit "report.signed.pdf")) (Some HEADING_1) [] false;
          mkParagraph None None [mkTextRun (lit "Hello") true 24] false]
  ∧ stripPdfSuffix (lit "report.pdf.signed.pdf") = lit "report.pdf.signed"
  ∧ text (titleParagraph (lit "Report.PDF")) = Some (lit "Report.PDF")
  ∧ stripPdfSuffix (lit "Report.PDF") = lit "Report".
Proof. repeat split; reflexivity. Qed.

(** * Further properties of the same code *)

(** ** Shape of the grouped lines *)

Lemma walk_lines_shape tolerance ref cur rest :
  ∃ more others,
    walk_lines tolerance ref (ref :: cur) rest
    = (ref :: cur ++ more) :: others.
Proof.
  revert ref cur. induction rest as [|f rest IH]; intros ref cur; simpl.
  - exists [], []. by rewrite app_nil_r.
  - case_bool_decide.
    + exists [], (walk_lines tolerance f [f] rest). by rewrite app_nil_r.
    + destruct (IH ref (cur ++ [f])) as (more & others & Heq).
      exists (f :: more), others. simpl in Heq. rewrite Heq.
      by rewrite <- (assoc_L (++)).
Qed.

Lemma walk_lines_grouped tolerance ref cur rest :
  Forall (within tolerance ref) cur →
  grouped tolerance (walk_lines tolerance ref (ref :: cur) rest).
Proof.
  revert ref cur. induction rest as [|f rest IH]; intros ref cur Hcur; simpl.
  - by constructor.
  - case_bool_decide as Hfar.
    + pose proof (IH f [] (Forall_nil_2 _)) as Hg.
      destruct (walk_lines_shape tolerance f [] rest) as (more & others & Heq).
      rewrite Heq in Hg |- *. by constructor.
    + apply (IH ref (cur ++ [f])). apply Forall_app. split; [done|].
      apply Forall_singleton. unfold within. lia.
Qed.

Lemma spec_lines_grouped tolerance sorted :
  grouped tolerance (spec_lines tolerance sorted).
Proof.
  destruct sorted as [|f rest]; [constructor|].
  by apply (walk_lines_grouped tolerance f []).
Qed.

Lemma grouped_run tolerance runs run :
  grouped tolerance runs → run ∈ runs →
  ∃ ref fs, run = ref :: fs ∧ Forall (within tolerance ref) fs.
Proof.
  induction 1 as [|ref fs Hfs|ref fs ref' fs' runs Hfs Hfar Hg IH].
  - by intros ?%elem_of_nil.
  - intros ->%list_elem_of_singleton. by exists ref, fs.
  - intros [->|Hin]%elem_of_cons; [by exists ref, fs|by apply IH].
Qed.

Lemma grouped_next tolerance runs (i : nat) r1 r2 :
  grouped tolerance runs →
  runs !! i = Some r1 → runs !! S i = Some r2 →
  ∃ ref fs ref' fs',
    r1 = ref :: fs ∧ r2 = ref' :: fs' ∧
    tolerance < Z.abs (Item.y ref' - Item.y ref).
Proof.
  intros Hg. revert i.
  induction Hg as [|ref fs Hfs|ref fs ref' fs' runs Hfs Hfar Hg IH];
    intros i H1 H2.
  - by rewrite lookup_nil in H1.
  - destruct i; simpl in H2; by rewrite ?lookup_nil in H2.
  - destruct i as [|i]; simpl in H1, H2.
    + injection H1 as <-. injection H2 as <-. by exists ref, fs, ref', fs'.
    + by eapply IH.
Qed.

(** In a run of the sorted order the reference has the least [y]. *)
Lemma sorted_run_ref ref fs f :
  StronglySorted le_yx (ref :: fs) → f ∈ ref :: fs → Item.y ref ≤ Item.y f.
Proof.
  intros [Hall _]%StronglySorted_cons [->|Hin]%elem_of_cons; [lia|].
  rewrite Forall_forall in Hall. specialize (Hall f Hin).
  unfold le_yx in Hall. lia.
Qed.

Lemma sorted_join_run {A} (R : relation A) (ls : list (list A)) l :
  StronglySorted R (mjoin ls) → l ∈ ls → StronglySorted R l.
Proof.
  induction ls as [|l' ls IH]; simpl; [by intros _ ?%elem_of_nil|].
  intros Hs [->|Hin]%elem_of_cons.
  - by eapply StronglySorted_app_1_l.
  - apply IH; [|done]. by eapply StronglySorted_app_1_r.
Qed.

(** The runs behind the lines that [groupIntoLines] returns. *)
Lemma groupIntoLines_runs items tolerance lines :
  groupIntoLines items tolerance = Some lines →
  ∃ runs,
    lines = js_sort cmpX <$> runs ∧
    grouped tolerance runs ∧
    mjoin runs = js_sort cmpYX items ∧
    StronglySorted le_yx (mjoin runs).
Proof.
  rewrite groupIntoLines_spec. intros [= <-].
  exists (spec_lines tolerance (js_sort cmpYX items)).
  split; [done|]. split; [apply spec_lines_grouped|].
  rewrite spec_lines_concat. split; [done|apply sortYX_sorted].
Qed.

Lemma runs_spread tolerance runs run a b :
  0 ≤ tolerance → grouped tolerance runs →
  StronglySorted le_yx (mjoin runs) → run ∈ runs → a ∈ run → b ∈ run →
  Z.abs (Item.y a - Item.y b) ≤ tolerance.
Proof.
  intros Htol Hg Hs Hrun Ha Hb.
  pose proof (sorted_join_run _ _ _ Hs Hrun) as Hsr.
  destruct (grouped_run _ _ _ Hg Hrun) as (ref & fs & -> & Hfs).
  pose proof (sorted_run_ref _ _ _ Hsr Ha) as Hra.
  pose proof (sorted_run_ref _ _ _ Hsr Hb) as Hrb.
  assert (∀ f, f ∈ ref :: fs → Item.y f - Item.y ref ≤ tolerance) as Hnear.
  { intros f [->|Hin]%elem_of_cons; [lia|].
    rewrite Forall_forall in Hfs. specialize (Hfs f Hin).
    unfold within in Hfs. lia. }
  specialize (Hnear a Ha) as Hna. specialize (Hnear b Hb) as Hnb. lia.
Qed.

(** X1. With a tolerance that is not negative, any two fragments of one
    returned line have [y] values at most the tolerance apart. *)
Theorem groupIntoLines_line_spread items tolerance lines line a b :
  0 ≤ tolerance →
  groupIntoLines items tolerance = Some lines →
  line ∈ lines → a ∈ line → b ∈ line →
  Z.abs (Item.y a - Item.y b) ≤ tolerance.
Proof.
  intros Htol Hrun Hline Ha Hb.
  destruct (groupIntoLines_runs _ _ _ Hrun) as (runs & -> & Hg & _ & Hs).
  apply list_elem_of_fmap in Hline as (run & -> & Hin).
  apply js_sort_elem_of in Ha, Hb.
  by eapply runs_spread.
Qed.

Lemma groupIntoLines_line_spread_witness :
  let items := [frag "b" 60 14; frag "a" 10 10; frag "c" 5 30] in
  let line := [frag "a" 10 10; frag "b" 60 14] in
  0 ≤ 5 ∧
  groupIntoLines items 5 = Some [line; [frag "c" 5 30]] ∧
  Z.abs (Item.y (frag "a" 10 10) - Item.y (frag "b" 60 14)) ≤ 5.
Proof.
  intros items line.
  assert (0 ≤ 5) as H0 by lia.
  assert (groupIntoLines items 5 = Some [line; [frag "c" 5 30]]) as H1
    by reflexivity.
  split; [done|]. split; [done|].
  apply (groupIntoLines_line_spread items 5 _ line _ _ H0 H1).
  - left.
  - left.
  - right. left.
Defined.

(** X2. Each returned line lies wholly below the one before it: every
    fragment of the later line has a [y] that exceeds the least [y] of
    the earlier line by more than the tolerance. *)
Theorem groupIntoLines_line_separation items tolerance lines (i : nat) l1 l2 :
  groupIntoLines items tolerance = Some lines →
  lines !! i = Some l1 → lines !! S i = Some l2 →
  ∃ top, top ∈ l1 ∧
    (∀ a, a ∈ l1 → Item.y top ≤ Item.y a) ∧
    (∀ b, b ∈ l2 → tolerance < Item.y b - Item.y top).
Proof.
  intros Hrun H1 H2.
  destruct (groupIntoLines_runs _ _ _ Hrun) as (runs & -> & Hg & _ & Hs).
  apply list_lookup_fmap_Some in H1 as (r1 & -> & H1).
  apply list_lookup_fmap_Some in H2 as (r2 & -> & H2).
  destruct (grouped_next _ _ _ _ _ Hg H1 H2)
    as (ref & fs & ref' & fs' & -> & -> & Hfar).
  pose proof (sorted_join_run _ _ _ Hs (list_elem_of_lookup_2 _ _ _ H1)) as Hs1.
  pose proof (sorted_join_run _ _ _ Hs (list_elem_of_lookup_2 _ _ _ H2)) as Hs2.
  assert (le_yx ref ref') as Hle.
  { eapply (sorted_join_cross _ _ Hs i (S i)); [lia|done|done|left|left]. }
  exists ref. split; [apply js_sort_elem_of; left|].
  split.
  - intros a Ha%js_sort_elem_of. by eapply sorted_run_ref.
  - intros b Hb%js_sort_elem_of.
    pose proof (sorted_run_ref _ _ _ Hs2 Hb). unfold le_yx in Hle. lia.
Qed.

Lemma groupIntoLines_line_separation_witness :
  let items := [frag "b" 60 14; frag "a" 10 10; frag "c" 5 30] in
  let l1 := [frag "a" 10 10; frag "b" 60 14] in
  let l2 := [frag "c" 5 30] in
  groupIntoLines items 5 = Some [l1; l2] ∧
  ∃ top, top ∈ l1 ∧ ∀ b, b ∈ l2 → 5 < Item.y b - Item.y top.
Proof.
  intros items l1 l2.
  assert (groupIntoLines items 5 = Some [l1; l2]) as H1 by reflexivity.
  split; [done|].
  destruct (groupIntoLines_line_separation items 5 [l1; l2] 0 l1 l2 H1
              eq_refl eq_refl) as (top & Htop & _ & Hsep).
  by exists top.
Defined.

Lemma walk_lines_all_within tolerance ref cur rest :
  Forall (within tolerance ref) rest →
  walk_lines tolerance ref cur rest = [cur ++ rest].
Proof.
  revert cur. induction rest as [|f rest IH]; intros cur Hall; simpl.
  - by rewrite app_nil_r.
  - apply Forall_cons in Hall as [Hf Hall]. unfold within in Hf.
    rewrite bool_decide_eq_false_2 by lia.
    rewrite IH by done. by rewrite <- (assoc_L (++)).
Qed.

(** X3. With a tolerance that is not negative, the fragments come back as
    a single line exactly when there is at least one and all their [y]
    values are within the tolerance of one another. *)
Theorem groupIntoLines_single_line items tolerance :
  0 ≤ tolerance →
  (∃ line, groupIntoLines items tolerance = Some [line]) ↔
  items ≠ [] ∧
  ∀ a b, a ∈ items → b ∈ items → Z.abs (Item.y a - Item.y b) ≤ tolerance.
Proof.
  intros Htol. split.
  - intros [line Hrun].
    pose proof (groupIntoLines_perm _ _ _ Hrun) as Hperm.
    simpl in Hperm. rewrite app_nil_r in Hperm.
    split.
    { intros ->. by rewrite groupIntoLines_spec in Hrun. }
    intros a b Ha Hb. rewrite <- Hperm in Ha, Hb.
    destruct (groupIntoLines_runs _ _ _ Hrun) as (runs & Heq & Hg & _ & Hs).
    destruct runs as [|run [|? ?]]; try done.
    injection Heq as ->. apply js_sort_elem_of in Ha, Hb.
    eapply (runs_spread tolerance [run] run); eauto. left.
  - intros [Hne Hall]. rewrite groupIntoLines_spec.
    destruct (js_sort cmpYX items) as [|ref rest] eqn:Hs.
    { by apply js_sort_nil_inv in Hs. }
    simpl. rewrite walk_lines_all_within; [by eexists|].
    apply Forall_forall. intros f Hf. unfold within.
    apply Hall; apply (js_sort_elem_of cmpYX); rewrite Hs;
      [by right|left].
Qed.

Lemma groupIntoLines_single_line_witness :
  0 ≤ 5 ∧
  ∃ line,
    groupIntoLines [frag "Hello" 10 10; frag "World" 60 11] 5 = Some [line].
Proof.
  assert (0 ≤ 5) as H0 by lia.
  split; [done|].
  apply (groupIntoLines_single_line _ 5 H0). split; [done|].
  intros a b Ha Hb.
  apply elem_of_cons in Ha as [->|Ha%list_elem_of_singleton];
    apply elem_of_cons in Hb as [->|Hb%list_elem_of_singleton];
    subst; simpl; lia.
Defined.

Lemma walk_lines_negative tolerance ref cur rest :
  tolerance < 0 →
  walk_lines tolerance ref cur rest = cur :: ((λ f, [f]) <$> rest).
Proof.
  intros Htol. revert ref cur.
  induction rest as [|f rest IH]; intros ref cur; simpl; [done|].
  rewrite bool_decide_eq_true_2 by lia. by rewrite IH.
Qed.

(** X4. With a negative tolerance no two fragments share a line: the
    result is the y-then-x sorted input, one fragment per line. *)
Theorem groupIntoLines_negative_tolerance items tolerance :
  tolerance < 0 →
  groupIntoLines items tolerance
  = Some ((λ f, [f]) <$> js_sort cmpYX items).
Proof.
  intros Htol. rewrite groupIntoLines_spec. f_equal.
  destruct (js_sort cmpYX items) as [|ref rest]; [done|].
  simpl. rewrite walk_lines_negative by done.
  rewrite fmap_cons. f_equal.
  rewrite <- list_fmap_compose. by apply list_fmap_ext.
Qed.

Lemma groupIntoLines_negative_tolerance_witness :
  -1 < 0 ∧
  groupIntoLines [frag "b" 60 10; frag "a" 10 10] (-1)
  = Some [[frag "a" 10 10]; [frag "b" 60 10]].
Proof.
  assert (-1 < 0) as H0 by lia.
  split; [done|].
  exact (groupIntoLines_negative_tolerance
           [frag "b" 60 10; frag "a" 10 10] (-1) H0).
Defined.

(** ** More on columns *)

Lemma cluster_from_covers acc rest v :
  StronglySorted Z.le (acc :: rest) → v ∈ rest →
  ∃ c, c ∈ acc :: cluster_from acc rest ∧ 0 ≤ v - c ≤ 20.
Proof.
  revert acc. induction rest as [|u rest IH]; intros acc Hs Hv.
  { by apply elem_of_nil in Hv. }
  apply StronglySorted_cons in Hs as [Hacc Hs].
  apply Forall_cons in Hacc as [Hau Hacc]. simpl.
  apply elem_of_cons in Hv as [->|Hv].
  - case_bool_decide.
    + exists u. split; [right; left|lia].
    + exists acc. split; [left|lia].
  - case_bool_decide.
    + destruct (IH u Hs Hv) as (c & Hc & Hvc).
      exists c. split; [by right|done].
    + destruct (IH acc) as (c & Hc & Hvc); [|done|by exists c].
      apply StronglySorted_cons in Hs as [_ Hs].
      by apply StronglySorted_cons.
Qed.

Lemma detectColumns_covers lines v :
  v ∈ xPositions lines → ∃ c, c ∈ detectColumns lines ∧ 0 ≤ v - c ≤ 20.
Proof.
  intros Hv. rewrite detectColumns_spec.
  apply distinct_elem_of, (js_sort_elem_of cmpNum) in Hv.
  pose proof (sortNum_sorted (distinct (xPositions lines))) as Hs.
  destruct (js_sort cmpNum (distinct (xPositions lines))) as [|u rest];
    [by apply elem_of_nil in Hv|].
  simpl. apply elem_of_cons in Hv as [->|Hv].
  - exists u. split; [left|lia].
  - by apply cluster_from_covers.
Qed.

(** X5. Every fragment x-position of the page is covered by a column: it
    lies at or right of some detected column, by at most 20 units. *)
Theorem detectColumns_covers_positions lines line it :
  line ∈ lines → it ∈ line →
  ∃ c, c ∈ detectColumns lines ∧ 0 ≤ Item.x it - c ≤ 20.
Proof.
  intros Hline Hit. apply detectColumns_covers.
  unfold xPositions. apply list_elem_of_bind. exists line.
  split; [|done]. by apply list_elem_of_fmap_2.
Qed.

Lemma detectColumns_covers_positions_witness :
  let lines :=
    [[frag "a" 10 1; frag "b" 15 1]; [frag "c" 80 9; frag "d" 83 9]] in
  ∃ c, c ∈ detectColumns lines ∧ 0 ≤ 83 - c ≤ 20.
Proof.
  intros lines.
  apply (detectColumns_covers_positions lines
           [frag "c" 80 9; frag "d" 83 9] (frag "d" 83 9)).
  - right. left.
  - right. left.
Defined.

(** X6. In table conversion every fragment goes to a column whose
    representative is at most 20 units from the fragment's [x]. *)
Theorem assignCol_within_20 lines line it :
  line ∈ lines → it ∈ line →
  ∃ c, detectColumns lines !! assignCol (Item.x it) (detectColumns lines)
       = Some c ∧
       Z.abs (Item.x it - c) ≤ 20.
Proof.
  intros Hline Hit.
  assert (∃ c0, c0 ∈ detectColumns lines ∧ 0 ≤ Item.x it - c0 ≤ 20)
    as (c0 & Hc0 & Hnear).
  { apply detectColumns_covers. unfold xPositions.
    apply list_elem_of_bind. exists line.
    split; [by apply list_elem_of_fmap_2|done]. }
  assert (detectColumns lines ≠ []) as Hne.
  { intros Hnil. rewrite Hnil in Hc0. by apply elem_of_nil in Hc0. }
  destruct (assignCol_nearest (Item.x it) _ Hne) as (c & Hc & Hmin).
  exists c. split; [done|].
  apply list_elem_of_lookup_1 in Hc0 as [j Hj].
  destruct (Hmin j c0 Hj) as [Hle _]. lia.
Qed.

Lemma assignCol_within_20_witness :
  let lines :=
    [[frag "a" 10 1; frag "b" 28 1]; [frag "c" 31 9]] in
  detectColumns lines = [10; 31] ∧
  ∃ c, detectColumns lines !! assignCol 28 (detectColumns lines) = Some c ∧
       Z.abs (28 - c) ≤ 20.
Proof.
  intros lines. split; [reflexivity|].
  apply (assignCol_within_20 lines [frag "a" 10 1; frag "b" 28 1]
           (frag "b" 28 1)).
  - left.
  - right. left.
Defined.

Lemma sorted_lt_lookup_inj cols (i j : nat) c :
  StronglySorted Z.lt cols → cols !! i = Some c → cols !! j = Some c → i = j.
Proof.
  intros Hs Hi Hj. apply sorted_lt_NoDup in Hs.
  eapply NoDup_lookup; eauto.
Qed.

(** X7. A fragment that starts exactly at a detected column is assigned
    to that column. *)
Theorem assignCol_on_column lines (i : nat) c :
  detectColumns lines !! i = Some c →
  assignCol c (detectColumns lines) = i.
Proof.
  intros Hi.
  assert (detectColumns lines ≠ []) as Hne.
  { intros Hnil. by rewrite Hnil, lookup_nil in Hi. }
  destruct (assignCol_nearest c _ Hne) as (c' & Hc' & Hmin).
  destruct (Hmin i c Hi) as [Hle _].
  assert (c' = c) as -> by lia.
  eapply sorted_lt_lookup_inj; [|done..].
  apply apart_sorted_lt, detectColumns_apart.
Qed.

Lemma assignCol_on_column_witness :
  let lines :=
    [[frag "a" 10 1; frag "b" 15 1]; [frag "c" 80 9; frag "d" 83 9]] in
  detectColumns lines !! 1%nat = Some 80 ∧
  assignCol 80 (detectColumns lines) = 1%nat.
Proof.
  intros lines.
  assert (detectColumns lines !! 1%nat = Some 80) as H1 by reflexivity.
  split; [done|]. exact (assignCol_on_column lines 1 80 H1).
Defined.

(** Columns after one more x-position, strictly between two adjacent
    columns and more than 20 from both. *)
Lemma cluster_from_insert x c1 c2 B S :
  20 < x - c1 → 20 < c2 - x → x ∉ S →
  ∀ acc A,
    StronglySorted Z.lt (acc :: S) →
    acc :: cluster_from acc S = A ++ c1 :: c2 :: B →
    acc :: cluster_from acc (sort_insert cmpNum x S)
    = A ++ c1 :: x :: c2 :: B.
Proof.
  intros Hx1 Hx2. induction S as [|u S IH]; intros Hnin acc A Hs Hcols.
  { destruct A as [|? [|? ?]]; discriminate. }
  apply not_elem_of_cons in Hnin as [Hxu Hnin].
  apply StronglySorted_cons in Hs as [Hacc Hs].
  apply Forall_cons in Hacc as [Hau Hacc].
  simpl. unfold cmpNum at 1.
  destruct (Z.leb_spec (x - u) 0) as [Hle|Hgt].
  - assert (∀ c, c ∈ cluster_from acc (u :: S) → x < c) as Hright.
    { intros c Hc%cluster_from_subseteq.
      apply elem_of_cons in Hc as [->|Hc]; [lia|].
      apply StronglySorted_cons in Hs as [Hu _].
      rewrite Forall_forall in Hu. specialize (Hu c Hc). lia. }
    destruct A as [|a A]; cbn [app] in Hcols.
    + injection Hcols as -> Hcl.
      simpl in Hcl |- *.
      rewrite bool_decide_eq_true_2 in Hcl by lia.
      injection Hcl as -> <-.
      by rewrite !bool_decide_eq_true_2 by lia.
    + injection Hcols as -> Hcl.
      specialize (Hright c1). simpl in Hright. rewrite Hcl in Hright.
      assert (x < c1) by (apply Hright, elem_of_app; right; left). lia.
  - simpl in Hcols |- *. case_bool_decide as Hfar.
    + destruct A as [|a A]; simpl in Hcols.
      * injection Hcols as -> -> _. lia.
      * injection Hcols as -> Hcl. cbn [app]. f_equal. by apply IH.
    + apply IH; [done| |done].
      apply StronglySorted_cons in Hs as [_ Hs].
      by apply StronglySorted_cons.
Qed.

(** X8. One more fragment whose [x] lies strictly between two adjacent
    columns, more than 20 units from each, adds exactly that [x] as a
    column between them and leaves every other column as it was. *)
Theorem detectColumns_insert_between lines lines' x A c1 c2 B :
  detectColumns lines = A ++ c1 :: c2 :: B →
  20 < x - c1 → 20 < c2 - x →
  (∀ v, v ∈ xPositions lines' ↔ v = x ∨ v ∈ xPositions lines) →
  detectColumns lines' = A ++ c1 :: x :: c2 :: B.
Proof.
  intros Hcols Hx1 Hx2 Hset.
  pose proof (apart_sorted_lt _ (detectColumns_apart lines)) as Hlt.
  rewrite Hcols in Hlt.
  apply StronglySorted_app in Hlt as (HA & _ & Hlt).
  apply StronglySorted_cons in Hlt as [_ Hlt].
  apply StronglySorted_cons in Hlt as [HB _].
  rewrite Forall_forall in HB.
  assert (x ∉ xPositions lines) as Hnew.
  { intros (c & Hc & Hnear)%detectColumns_covers. rewrite Hcols in Hc.
    apply elem_of_app in Hc as [Hc|Hc].
    - assert (c < c1) by (apply HA; [done|left]). lia.
    - apply elem_of_cons in Hc as [->|Hc]; [lia|].
      apply elem_of_cons in Hc as [->|Hc]; [lia|].
      specialize (HB c Hc). lia. }
  set (S := js_sort cmpNum (distinct (xPositions lines))) in *.
  assert (StronglySorted Z.lt S) as HS by apply sorted_distinct_lt.
  assert (∀ v, v ∈ S ↔ v ∈ xPositions lines) as HSel.
  { intros v. unfold S. by rewrite js_sort_elem_of, distinct_elem_of. }
  assert (x ∉ S) as HxS by (by rewrite HSel).
  assert (js_sort cmpNum (distinct (xPositions lines'))
          = sort_insert cmpNum x S) as Hins.
  { apply (StronglySorted_unique Z.le).
    - apply sortNum_sorted.
    - apply sort_insert_sorted; [apply _|unfold cmpNum; intros; lia..|].
      eapply StronglySorted_weaken; [|exact HS]. intros; lia.
    - rewrite sort_insert_perm.
      apply sorted_distinct_perm.
      + intros v. rewrite Hset, elem_of_cons, HSel. done.
      + apply NoDup_cons. split; [done|]. by apply sorted_lt_NoDup. }
  rewrite detectColumns_spec in Hcols. fold S in Hcols.
  rewrite detectColumns_spec, Hins.
  destruct S as [|s0 S0]; [by destruct A|].
  simpl in Hcols |- *. unfold cmpNum at 1.
  destruct (Z.leb_spec (x - s0) 0) as [Hle|Hgt].
  - exfalso.
    assert (c1 ∈ s0 :: cluster_from s0 S0) as Hc1
      by (rewrite Hcols; apply elem_of_app; right; left).
    apply elem_of_cons in Hc1 as [->|Hc1%cluster_from_subseteq]; [lia|].
    apply StronglySorted_cons in HS as [Hs0 _].
    rewrite Forall_forall in Hs0. specialize (Hs0 c1 Hc1). lia.
  - apply cluster_from_insert; try done.
    by apply not_elem_of_cons in HxS as [_ ?].
Qed.

Lemma detectColumns_insert_between_witness :
  let lines := [[frag "a" 10 1; frag "b" 15 1; frag "c" 80 1]] in
  let lines' := [[frag "a" 10 1; frag "b" 15 1; frag "m" 45 1; frag "c" 80 1]] in
  detectColumns lines = [] ++ 10 :: 80 :: [] ∧
  20 < 45 - 10 ∧ 20 < 80 - 45 ∧
  detectColumns lines' = [10; 45; 80].
Proof.
  intros lines lines'.
  assert (detectColumns lines = [] ++ 10 :: 80 :: []) as H1 by reflexivity.
  assert (20 < 45 - 10) as H2 by lia.
  assert (20 < 80 - 45) as H3 by lia.
  split; [done|]. split; [done|]. split; [done|].
  apply (detectColumns_insert_between lines lines' 45 [] 10 80 [] H1 H2 H3).
  intros v. change (v ∈ [10; 15; 45; 80] ↔ v = 45 ∨ v ∈ [10; 15; 80]).
  rewrite !elem_of_cons, !elem_of_nil. tauto.
Defined.

(** ** More on rows and sheets *)

Lemma trimStart_hasInk s : hasInk (trimStart s) ↔ hasInk s.
Proof.
  unfold hasInk. induction s as [|c s IH]; simpl; [done|].
  destruct (isWhiteSpace c) eqn:Hc; [|done].
  rewrite IH, Exists_cons. split; [by right|].
  intros [Hc'|?]; [congruence|done].
Qed.

Lemma trimStart_nil s : trimStart s = [] ↔ ¬ hasInk s.
Proof.
  unfold hasInk. induction s as [|c s IH]; simpl.
  - split; [by intros _ ?%Exists_nil|done].
  - destruct (isWhiteSpace c) eqn:Hc.
    + rewrite IH, Exists_cons. split; [|tauto].
      intros Hn [Hc'|?]; [congruence|done].
    + split; [done|]. intros Hn. exfalso. apply Hn. by left.
Qed.

Lemma hasInk_reverse s : hasInk (reverse s) ↔ hasInk s.
Proof.
  unfold hasInk. rewrite !Exists_exists.
  by setoid_rewrite elem_of_reverse.
Qed.

(** A string is truthy after trimming exactly when it has a character
    that is not white space. *)
Lemma trim_truthy s : truthy (trim s) = true ↔ hasInk s.
Proof.
  rewrite truthy_true. unfold trim.
  rewrite <- (trimStart_hasInk s), <- (hasInk_reverse (trimStart s)).
  split.
  - intros Hne. destruct (decide (hasInk (reverse (trimStart s)))) as [|Hno];
      [done|].
    apply trimStart_nil in Hno. by rewrite Hno in Hne.
  - intros Hink Hnil. apply (f_equal reverse) in Hnil.
    rewrite reverse_involutive in Hnil. simpl in Hnil.
    apply trimStart_nil in Hnil. done.
Qed.

Lemma hasInk_occursIn s cell : hasInk s → occursIn s cell → hasInk cell.
Proof.
  intros Hs (pre & suf & ->). unfold hasInk in *.
  rewrite !Exists_app. tauto.
Qed.

(** Every fragment processed so far has its text inside the cell of its
    column. *)
Lemma buildRow_keeps_text cols line it :
  cols ≠ [] → it ∈ line →
  ∃ cell,
    buildRow cols line !! assignCol (Item.x it) cols = Some cell ∧
    occursIn (Item.str it) cell.
Proof.
  intros Hne. induction line as [|it' line IH] using rev_ind.
  { by intros ?%elem_of_nil. }
  intros Hin.
  pose proof (buildRow_length cols line Hne) as Hlen.
  pose proof (assignCol_lt (Item.x it') cols Hne) as Hlt'.
  pose proof (assignCol_lt (Item.x it) cols Hne) as Hlt.
  rewrite buildRow_snoc. unfold row_step.
  destruct (buildRow cols line !! assignCol (Item.x it') cols) as [c|] eqn:Hc;
    [|apply lookup_ge_None in Hc; lia].
  assert (∃ v, (if truthy c
                then row_set (buildRow cols line) (assignCol (Item.x it') cols)
                       (c ++ lit " " ++ Item.str it')
                else row_set (buildRow cols line) (assignCol (Item.x it') cols)
                       (Item.str it'))
               = <[assignCol (Item.x it') cols := v]> (buildRow cols line)
               ∧ occursIn (Item.str it') v
               ∧ ∀ s, occursIn s c → occursIn s v) as (v & -> & Hnew & Hold).
  { destruct (truthy c) eqn:Htr; rewrite row_set_in_range by lia.
    - exists (c ++ lit " " ++ Item.str it'). split; [done|]. split.
      + exists (c ++ lit " "), []. by rewrite app_nil_r, <- (assoc_L (++)).
      + intros s (pre & suf & ->).
        exists pre, (suf ++ lit " " ++ Item.str it').
        by rewrite <- !(assoc_L (++)).
    - exists (Item.str it'). split; [done|]. split.
      + exists [], []. by rewrite app_nil_r.
      + destruct c; [|done]. intros s (pre & suf & Heq).
        symmetry in Heq. apply app_eq_nil in Heq as [-> Heq].
        apply app_eq_nil in Heq as [-> ->].
        exists [], (Item.str it'). done. }
  destruct (decide (assignCol (Item.x it) cols = assignCol (Item.x it') cols))
    as [Heq|Hneq].
  - rewrite Heq, list_lookup_insert_eq by lia.
    exists v. split; [done|].
    apply elem_of_app in Hin as [Hin|Hin%list_elem_of_singleton];
      [|by subst].
    destruct (IH Hin) as (cell & Hcell & Hocc).
    rewrite Heq, Hc in Hcell. injection Hcell as <-. by apply Hold.
  - rewrite list_lookup_insert_ne by done.
    apply elem_of_app in Hin as [Hin|Hin%list_elem_of_singleton];
      [by apply IH|by subst].
Qed.

Lemma nonBlank_true row :
  nonBlank row = true ↔ ∃ cell, cell ∈ row ∧ hasInk cell.
Proof.
  unfold nonBlank. rewrite existsb_exists.
  split; intros (c & Hin & Hc); exists c.
  - split; [by apply list_elem_of_In|by apply trim_truthy].
  - split; [by apply list_elem_of_In|by apply trim_truthy].
Qed.

(** A line holding a fragment with ink gives a row that is kept. *)
Lemma buildRow_nonBlank cols line it :
  cols ≠ [] → it ∈ line → hasInk (Item.str it) →
  nonBlank (buildRow cols line) = true.
Proof.
  intros Hne Hin Hink.
  destruct (buildRow_keeps_text cols line it Hne Hin) as (cell & Hcell & Hocc).
  apply nonBlank_true. exists cell.
  split; [by eapply list_elem_of_lookup_2|by eapply hasInk_occursIn].
Qed.

Lemma foldl_grid_step_app cols grid lines :
  foldl (grid_step cols) grid lines
  = grid ++ foldl (grid_step cols) [] lines.
Proof.
  revert grid. induction lines as [|line lines IH] using rev_ind; intros grid.
  - by rewrite app_nil_r.
  - rewrite !foldl_snoc, IH. unfold grid_step.
    destruct (nonBlank _); [|done]. by rewrite <- (assoc_L (++)).
Qed.

(** The grid is the rows of the lines whose row is not blank, in order. *)
Lemma grid_rows cols lines :
  foldl (grid_step cols) [] lines
  = filter (λ row, nonBlank row = true) (buildRow cols <$> lines).
Proof.
  induction lines as [|line lines IH] using rev_ind; [done|].
  rewrite foldl_snoc, fmap_app, filter_app, <- IH. unfold grid_step at 1.
  change (buildRow cols <$> [line]) with [buildRow cols line].
  rewrite filter_cons, filter_nil.
  destruct (decide _) as [->|Hnb]; [done|].
  apply not_true_is_false in Hnb. by rewrite Hnb, app_nil_r.
Qed.

Lemma excel_pages_spec npages pages p wb :
  excel_pages npages p pages wb = Some (wb ++ spec_sheets npages p pages).
Proof.
  revert p wb. induction pages as [|items rest IH]; intros p wb; simpl.
  - by rewrite app_nil_r.
  - unfold pageSheet.
    destruct (groupIntoLines items 8) as [[|l ls]|] eqn:Hlines; simpl.
    + apply IH.
    + rewrite IH. by rewrite <- (assoc_L (++)).
    + by rewrite groupIntoLines_spec in Hlines.
Qed.

Lemma spec_sheets_elem_of npages pages p s :
  s ∈ spec_sheets npages p pages ↔
  ∃ (q : nat) items,
    pages !! q = Some items ∧ s ∈ pageSheet npages (p + q) items.
Proof.
  revert p. induction pages as [|items rest IH]; intros p; simpl.
  - rewrite elem_of_nil. split; [done|]. by intros (q & it & ? & _).
  - rewrite elem_of_app, IH. split.
    + intros [Hs|(q & it & Hq & Hs)].
      * exists 0%nat, items. by rewrite Nat.add_0_r.
      * exists (S q), it. split; [done|].
        by replace (p + S q)%nat with (S p + q)%nat by lia.
    + intros ([|q] & it & Hq & Hs); simpl in Hq.
      * left. injection Hq as <-. by rewrite Nat.add_0_r in Hs.
      * right. exists q, it. split; [done|].
        by replace (S p + q)%nat with (p + S q)%nat by lia.
Qed.

(** The sheets of a conversion, each with the page it comes from. *)
Lemma convertToExcel_sheet pages sheets s :
  convertToExcel pages = Some sheets →
  s ∈ sheets ↔
  ∃ (q : nat) items lines,
    pages !! q = Some items ∧ groupIntoLines items 8 = Some lines ∧
    lines ≠ [] ∧ s = sheetFor (length pages) q lines.
Proof.
  unfold convertToExcel. rewrite excel_pages_spec. intros [= <-].
  simpl. rewrite spec_sheets_elem_of. unfold pageSheet. split.
  - intros (q & items & Hq & Hs). simpl in Hs.
    destruct (groupIntoLines items 8) as [[|l ls]|] eqn:Hlines;
      try by apply elem_of_nil in Hs.
    apply list_elem_of_singleton in Hs as ->.
    by exists q, items, (l :: ls).
  - intros (q & items & lines & Hq & Hlines & Hne & ->).
    exists q, items. split; [done|]. simpl. rewrite Hlines.
    destruct lines; [done|]. left.
Qed.

Lemma lines_columns_nonempty items tolerance lines :
  groupIntoLines items tolerance = Some lines → lines ≠ [] →
  detectColumns lines ≠ [].
Proof.
  intros Hlines Hne Hnil.
  apply detectColumns_nil_inv in Hnil; [done|].
  by eapply groupIntoLines_nonempty.
Qed.

(** X9. Every sheet of a table conversion is rectangular: it has at least
    one column, and every row has exactly as many cells as the sheet has
    column widths. *)
Theorem convertToExcel_rectangular pages sheets s :
  convertToExcel pages = Some sheets → s ∈ sheets →
  sheetCols s ≠ [] ∧
  ∀ row, row ∈ sheetData s → length row = length (sheetCols s).
Proof.
  intros Hrun Hs.
  apply (convertToExcel_sheet _ _ _ Hrun) in Hs
    as (q & items & lines & _ & Hlines & Hne & ->).
  pose proof (lines_columns_nonempty _ _ _ Hlines Hne) as Hcols.
  simpl. split.
  - intros Hnil%fmap_nil_inv. by destruct (detectColumns lines).
  - rewrite length_fmap, length_seq.
    intros row Hrow. rewrite grid_rows in Hrow.
    apply list_elem_of_filter in Hrow as [_ Hrow].
    apply list_elem_of_fmap in Hrow as (line & -> & _).
    by apply buildRow_length.
Qed.

Lemma convertToExcel_rectangular_witness :
  let pages := [[frag "Hello" 10 10; frag "World" 60 11]] in
  ∃ s, convertToExcel pages = Some [s] ∧ s ∈ [s] ∧
    ∀ row, row ∈ sheetData s → length row = length (sheetCols s).
Proof.
  intros pages. eexists.
  assert (convertToExcel pages = Some [_]) as H1 by reflexivity.
  split; [exact H1|]. split; [left|].
  apply (convertToExcel_rectangular pages _ _ H1). left.
Defined.

Lemma foldl_max_ge a l :
  a ≤ foldl Z.max a l ∧ Forall (λ v, v ≤ foldl Z.max a l) l.
Proof.
  revert a. induction l as [|v l IH]; intros a; simpl; [by split|].
  destruct (IH (Z.max a v)) as [Hge Hall]. split; [lia|].
  constructor; [lia|done].
Qed.

(** X10. Each column width of a sheet lies between 10 and 50, and is at
    least the length of every cell of that column, capped at 50. *)
Theorem convertToExcel_column_widths pages sheets s (ci : nat) w :
  convertToExcel pages = Some sheets → s ∈ sheets →
  sheetCols s !! ci = Some w →
  10 ≤ w ≤ 50 ∧
  ∀ row cell, row ∈ sheetData s → row !! ci = Some cell →
    Z.min 50 (Z.of_nat (length cell)) ≤ w.
Proof.
  intros Hrun Hs Hw.
  apply (convertToExcel_sheet _ _ _ Hrun) in Hs
    as (q & items & lines & _ & Hlines & Hne & ->).
  simpl in Hw |- *.
  apply list_lookup_fmap_Some in Hw as (ci' & -> & Hci).
  apply lookup_seq in Hci as [-> _]. simpl. unfold colWidth.
  set (grid := foldl (grid_step (detectColumns lines)) [] lines).
  destruct (foldl_max_ge 10
    ((λ r, Z.of_nat (length (default [] (r !! ci)))) <$> grid))
    as [Hge Hall].
  split; [lia|].
  intros row cell Hrow Hcell.
  rewrite Forall_fmap, Forall_forall in Hall.
  specialize (Hall row Hrow). simpl in Hall. rewrite Hcell in Hall.
  simpl in Hall. lia.
Qed.

Lemma convertToExcel_column_widths_witness :
  let pages := [[frag "Hello" 10 10; frag "World" 60 11]] in
  ∃ s w, convertToExcel pages = Some [s] ∧
    sheetCols s !! 0%nat = Some w ∧ 10 ≤ w ≤ 50.
Proof.
  intros pages. eexists. eexists.
  assert (convertToExcel pages = Some [_]) as H1 by reflexivity.
  split; [exact H1|].
  match type of H1 with _ = Some [?s] =>
    assert (sheetCols s !! 0%nat = Some 10) as H2 by reflexivity
  end.
  split; [exact H2|].
  by destruct (convertToExcel_column_widths pages _ _ 0 10 H1
                 ltac:(left) H2) as [Hw _].
Defined.

(** X11. Table conversion loses no text: a fragment of a page whose text
    has a character that is not white space occurs in a cell of a row of
    the sheet named after that page. *)
Theorem convertToExcel_keeps_text pages sheets (q : nat) items it :
  convertToExcel pages = Some sheets →
  pages !! q = Some items → it ∈ items → hasInk (Item.str it) →
  ∃ s row cell,
    s ∈ sheets ∧ sheetName s = sheetNameOf (length pages) q ∧
    row ∈ sheetData s ∧ cell ∈ row ∧ occursIn (Item.str it) cell.
Proof.
  intros Hrun Hq Hit Hink.
  destruct (groupIntoLines items 8) as [lines|] eqn:Hlines;
    [|by rewrite groupIntoLines_spec in Hlines].
  pose proof (groupIntoLines_perm _ _ _ Hlines) as Hperm.
  rewrite <- Hperm in Hit.
  apply list_elem_of_join in Hit as (line & Hit & Hline).
  assert (lines ≠ []) as Hne.
  { intros ->. by apply elem_of_nil in Hline. }
  pose proof (lines_columns_nonempty _ _ _ Hlines Hne) as Hcols.
  destruct (buildRow_keeps_text _ line it Hcols Hit) as (cell & Hcell & Hocc).
  exists (sheetFor (length pages) q lines),
    (buildRow (detectColumns lines) line), cell.
  split.
  { apply (convertToExcel_sheet _ _ _ Hrun). by exists q, items, lines. }
  split; [done|]. split; [|split; [by eapply list_elem_of_lookup_2|done]].
  simpl. rewrite grid_rows. apply list_elem_of_filter. split.
  - by eapply buildRow_nonBlank.
  - by apply list_elem_of_fmap_2.
Qed.

Lemma convertToExcel_keeps_text_witness :
  let pages := [[]; [frag "Hello" 10 10; frag "World" 60 11]] in
  ∃ sheets, convertToExcel pages = Some sheets ∧
    hasInk (Item.str (frag "World" 60 11)) ∧
    ∃ s row cell, s ∈ sheets ∧ sheetName s = lit "Page 2" ∧
      row ∈ sheetData s ∧ cell ∈ row ∧ occursIn (lit "World") cell.
Proof.
  intros pages. eexists.
  assert (convertToExcel pages = Some _) as H1 by reflexivity.
  assert (hasInk (Item.str (frag "World" 60 11))) as H2 by (by left).
  split; [exact H1|]. split; [exact H2|].
  refine (convertToExcel_keeps_text pages _ 1
            [frag "Hello" 10 10; frag "World" 60 11]
            (frag "World" 60 11) H1 eq_refl _ H2).
  right. left.
Defined.

Lemma filter_all {A} (P : A → Prop) `{!∀ a, Decision (P a)} l :
  Forall P l → filter P l = l.
Proof.
  induction 1 as [|a l Ha Hl IH]; [done|].
  by rewrite filter_cons_True, IH.
Qed.

Lemma sheet_row_per_line pages sheets (q : nat) items :
  convertToExcel pages = Some sheets →
  pages !! q = Some items → items ≠ [] →
  Forall (λ it, hasInk (Item.str it)) items →
  ∃ s lines,
    s ∈ sheets ∧ sheetName s = sheetNameOf (length pages) q ∧
    groupIntoLines items 8 = Some lines ∧
    sheetData s = buildRow (detectColumns lines) <$> lines.
Proof.
  intros Hrun Hq Hitems Hink.
  destruct (groupIntoLines items 8) as [lines|] eqn:Hlines;
    [|by rewrite groupIntoLines_spec in Hlines].
  assert (lines ≠ []) as Hne.
  { intros ->. by apply groupIntoLines_nil_iff in Hlines. }
  pose proof (lines_columns_nonempty _ _ _ Hlines Hne) as Hcols.
  pose proof (groupIntoLines_perm _ _ _ Hlines) as Hperm.
  pose proof (groupIntoLines_nonempty _ _ _ Hlines) as Hall.
  exists (sheetFor (length pages) q lines), lines.
  split.
  { apply (convertToExcel_sheet _ _ _ Hrun). by exists q, items, lines. }
  split; [done|]. split; [done|].
  simpl. rewrite grid_rows. apply filter_all.
  apply Forall_fmap, Forall_forall. intros line Hline. simpl.
  rewrite Forall_forall in Hall. specialize (Hall line Hline).
  destruct line as [|it line]; [done|].
  apply (buildRow_nonBlank _ _ it); [done|left|].
  rewrite Forall_forall in Hink. apply Hink.
  rewrite <- Hperm. apply list_elem_of_join.
  exists (it :: line). split; [left|done].
Qed.

(** X12. When every fragment of a page has a character that is not white
    space, as the extractor guarantees, no row of the page is dropped:
    the sheet has exactly one row per line, in line order. *)
Theorem convertToExcel_row_per_line pages sheets (q : nat) items :
  convertToExcel pages = Some sheets →
  pages !! q = Some items → items ≠ [] →
  Forall (λ it, hasInk (Item.str it)) items →
  ∃ s lines,
    s ∈ sheets ∧ sheetName s = sheetNameOf (length pages) q ∧
    groupIntoLines items 8 = Some lines ∧
    sheetData s = buildRow (detectColumns lines) <$> lines.
Proof. apply sheet_row_per_line. Qed.

Lemma convertToExcel_row_per_line_witness :
  let items := [frag "A" 10 10; frag "B" 10 50] in
  ∃ sheets, convertToExcel [items] = Some sheets ∧
    items ≠ [] ∧ Forall (λ it, hasInk (Item.str it)) items ∧
    ∃ s, s ∈ sheets ∧ sheetData s = [[lit "A"]; [lit "B"]].
Proof.
  intros items. eexists.
  assert (convertToExcel [items] = Some _) as H1 by reflexivity.
  assert (items ≠ []) as H2 by done.
  assert (Forall (λ it, hasInk (Item.str it)) items) as H3.
  { repeat constructor; by left. }
  split; [exact H1|]. split; [done|]. split; [done|].
  destruct (convertToExcel_row_per_line [items] _ 0 items H1 eq_refl H2 H3)
    as (s & lines & Hs & _ & Hlines & Hdata).
  exists s. split; [done|].
  assert (lines = [[frag "A" 10 10]; [frag "B" 10 50]]) as ->.
  { apply (inj Some). rewrite <- Hlines. reflexivity. }
  rewrite Hdata. reflexivity.
Defined.

Lemma lit_inj s1 s2 : lit s1 = lit s2 → s1 = s2.
Proof.
  unfold lit. intros H.
  rewrite <- (string_of_list_ascii_of_string s1),
    <- (string_of_list_ascii_of_string s2). f_equal.
  revert H. generalize (list_ascii_of_string s1) (list_ascii_of_string s2).
  induction l as [|a l IH]; intros [|b k] H; try done.
  rewrite !fmap_cons in H. injection H as Hab Hlk.
  f_equal; [|by apply IH].
  by rewrite <- (ascii_N_embedding a), <- (ascii_N_embedding b), Hab.
Qed.

Lemma decimal_inj n m : decimal n = decimal m → n = m.
Proof. unfold decimal. intros H%lit_inj%(inj pretty). lia. Qed.

Lemma contentPagesFrom_NoDup pages p : NoDup (contentPagesFrom p pages).
Proof.
  revert p. induction pages as [|items rest IH]; intros p; simpl.
  - apply NoDup_nil_2.
  - case_bool_decide; [apply IH|].
    apply NoDup_cons. split; [|apply IH].
    intros (i & it & Hp & _)%contentPagesFrom_elem_of. lia.
Qed.

Lemma sheet_names_NoDup pages sheets :
  convertToExcel pages = Some sheets → NoDup (sheetName <$> sheets).
Proof.
  destruct (excel_pages_sheets (length pages) pages 0 [])
    as (sheets' & Hrun & Hnames & _).
  unfold convertToExcel. rewrite Hrun. intros [= <-]. simpl.
  rewrite Hnames.
  apply NoDup_fmap_2_strong; [|apply contentPagesFrom_NoDup].
  intros p1 p2 Hp1 Hp2. unfold sheetNameOf. case_bool_decide as Hlen.
  - intros H%app_inv_head%decimal_inj. lia.
  - intros _.
    apply contentPagesFrom_elem_of in Hp1 as (i1 & ? & -> & Hi1 & _).
    apply contentPagesFrom_elem_of in Hp2 as (i2 & ? & -> & Hi2 & _).
    apply lookup_lt_Some in Hi1, Hi2. lia.
Qed.

(** X13. No two sheets built for one workbook carry the same name: the
    names handed to [book_append_sheet] are pairwise distinct. *)
Theorem convertToExcel_names_distinct pages sheets :
  convertToExcel pages = Some sheets → NoDup (sheetName <$> sheets).
Proof. apply sheet_names_NoDup. Qed.

Lemma convertToExcel_names_distinct_witness :
  let pages := [[frag "a" 10 10]; []; [frag "b" 10 10]] in
  ∃ sheets, convertToExcel pages = Some sheets ∧
    sheetName <$> sheets = [lit "Page 1"; lit "Page 3"] ∧
    NoDup (sheetName <$> sheets).
Proof.
  intros pages. eexists.
  assert (convertToExcel pages = Some _) as H1 by reflexivity.
  split; [exact H1|]. split; [reflexivity|].
  exact (convertToExcel_names_distinct pages _ H1).
Defined.

(** ** More on the flow output *)

Lemma pageBody_no_heading h items : filter (isHeading h) (pageBody items) = [].
Proof.
  pose proof (pageBody_plain items) as Hplain.
  induction Hplain as [|b l [Hb _] _ IH]; [done|].
  rewrite filter_cons_False; [done|]. unfold isHeading. by rewrite Hb.
Qed.

Lemma pageBody_no_break items : filter isBreak (pageBody items) = [].
Proof.
  pose proof (pageBody_plain items) as Hplain.
  induction Hplain as [|b l [_ Hb] _ IH]; [done|].
  rewrite filter_cons_False; [done|]. unfold isBreak. by rewrite Hb.
Qed.

Lemma filter_heading_pageHeading p :
  filter (isHeading HEADING_2) [pageHeading p] = [pageHeading p]
  ∧ filter (isHeading HEADING_1) [pageHeading p] = []
  ∧ filter isBreak [pageHeading p] = [].
Proof. done. Qed.

Lemma spec_pages_headings npages pages p :
  filter (isHeading HEADING_2) (spec_pages npages p pages)
  = (if bool_decide (1 < npages)%nat
     then pageHeading <$> seq p (length pages) else [])
  ∧ filter (isHeading HEADING_1) (spec_pages npages p pages) = [].
Proof.
  revert p. induction pages as [|items rest IH]; intros p; simpl.
  - by case_bool_decide.
  - destruct (IH (S p)) as [IH2 IH1].
    rewrite !filter_app, !pageBody_no_heading, IH1, IH2.
    repeat case_bool_decide; done.
Qed.

Lemma spec_pages_breaks npages pages p :
  (p + length pages = npages)%nat →
  filter isBreak (spec_pages npages p pages)
  = replicate (length pages - 1) pageBreak.
Proof.
  revert p. induction pages as [|items rest IH]; intros p Hlen; simpl; [done|].
  simpl in Hlen.
  rewrite !filter_app, pageBody_no_break, (IH (S p)) by lia.
  assert (filter isBreak
            (if bool_decide (1 < npages)%nat then [pageHeading p] else [])
          = []) as -> by (by case_bool_decide).
  destruct rest as [|items' rest]; simpl in *.
  - by rewrite bool_decide_eq_false_2 by lia.
  - rewrite bool_decide_eq_true_2 by lia.
    by rewrite Nat.sub_0_r.
Qed.

Lemma spec_pages_app npages pages1 pages2 p :
  spec_pages npages p (pages1 ++ pages2)
  = spec_pages npages p pages1
    ++ spec_pages npages (p + length pages1) pages2.
Proof.
  revert p. induction pages1 as [|items rest IH]; intros p; simpl.
  - by rewrite Nat.add_0_r.
  - rewrite IH, <- !(assoc_L (++)).
    by replace (S p + length rest)%nat with (p + S (length rest))%nat by lia.
Qed.

(** X14. The flow output of every document starts with a heading of
    level 1 whose text is the file name with its first ".pdf" removed,
    and has no other heading of level 1.  With more than one page the
    headings of level 2 are the blocks labelled Page 1 to Page n, in
    order, one per page; with one page or none there is no such heading.
    The page breaks are empty-text blocks, one less than the pages, and
    the output never ends with a page break. *)
Theorem convertToWord_block_counts name pages :
  ∃ body,
    convertToWord name pages
    = Some (mkParagraph (Some (replaceFirst (lit ".pdf") [] name))
              (Some HEADING_1) [] false :: body) ∧
    filter (isHeading HEADING_1) body = [] ∧
    filter (isHeading HEADING_2) body
    = (if bool_decide (1 < length pages)%nat
       then (λ p, mkParagraph (Some (lit "Page " ++ decimal (p + 1)))
                    (Some HEADING_2) [] false) <$> seq 0 (length pages)
       else []) ∧
    filter isBreak body
    = replicate (length pages - 1) (mkParagraph (Some []) None [] true) ∧
    ∀ b, last (mkParagraph (Some (replaceFirst (lit ".pdf") [] name))
                 (Some HEADING_1) [] false :: body) = Some b →
         ¬ isBreak b.
Proof.
  change (mkParagraph (Some (replaceFirst (lit ".pdf") [] name))
            (Some HEADING_1) [] false) with (titleParagraph name).
  exists (spec_pages (length pages) 0 pages).
  split; [apply word_pages_spec|].
  destruct (spec_pages_headings (length pages) pages 0) as [H2 H1].
  split; [done|]. split; [done|].
  split; [by apply spec_pages_breaks|].
  intros b Hlast.
  destruct pages as [|items rest _] using rev_ind.
  { simpl in Hlast. by injection Hlast as <-. }
  rewrite spec_pages_app in Hlast. simpl in Hlast.
  rewrite length_app in Hlast. simpl in Hlast.
  rewrite (bool_decide_eq_false_2 (S (length rest) < _)%nat) in Hlast by lia.
  rewrite !app_nil_r in Hlast.
  rewrite app_comm_cons, !(assoc_L (++)) in Hlast.
  pose proof (pageBody_plain items) as Hplain.
  destruct (pageBody items) as [|b0 body0 _] using rev_ind.
  - rewrite app_nil_r in Hlast. case_bool_decide as Hn.
    + rewrite last_snoc in Hlast. by injection Hlast as <-.
    + destruct rest; [|simpl in Hn; lia].
      simpl in Hlast. by injection Hlast as <-.
  - rewrite (assoc_L (++)), last_snoc in Hlast. injection Hlast as <-.
    apply Forall_app in Hplain as [_ Hb0].
    apply Forall_singleton in Hb0 as [_ Hb0].
    unfold isBreak. by rewrite Hb0.
Qed.

Lemma join_hasInk sep l s : s ∈ l → hasInk s → hasInk (join sep l).
Proof.
  intros Hin Hs. induction l as [|a l IH]; [by apply elem_of_nil in Hin|].
  destruct l as [|b l].
  - apply list_elem_of_singleton in Hin as ->. done.
  - change (hasInk (a ++ sep ++ join sep (b :: l))).
    unfold hasInk in *. rewrite !Exists_app.
    apply elem_of_cons in Hin as [->|Hin]; [by left|].
    right. right. by apply IH.
Qed.

(** X15. When every fragment of a page has a character that is not white
    space, as the extractor guarantees, no line of the page is skipped:
    the flow output has exactly one body block per line, in line order,
    carrying the trimmed, space-joined texts of the line's fragments. *)
Theorem pageBody_block_per_line name items lines :
  Forall (λ it, hasInk (Item.str it)) items →
  groupIntoLines items 5 = Some lines →
  pageBody items = lineParagraph <$> lines ∧
  convertToWord name [items]
  = Some (titleParagraph name :: (lineParagraph <$> lines)).
Proof.
  intros Hink Hlines.
  cut (pageBody items = lineParagraph <$> lines).
  { intros Hbody. split; [done|].
    unfold convertToWord. rewrite word_pages_spec. simpl.
    by rewrite !app_nil_r, Hbody. }
  pose proof (groupIntoLines_perm _ _ _ Hlines) as Hperm.
  pose proof (groupIntoLines_nonempty _ _ _ Hlines) as Hne.
  unfold pageBody. rewrite groupIntoLines_spec in Hlines.
  injection Hlines as Hlines. rewrite Hlines.
  assert (Forall (λ line, hasInk (join (lit " ") (Item.str <$> line))) lines)
    as Hjoin.
  { apply Forall_forall. intros line Hline.
    rewrite Forall_forall in Hne. specialize (Hne line Hline).
    destruct line as [|it line]; [done|].
    apply (join_hasInk _ _ (Item.str it)); [rewrite fmap_cons; left|].
    rewrite Forall_forall in Hink. apply Hink.
    rewrite <- Hperm. apply list_elem_of_join.
    exists (it :: line). split; [left|done]. }
  clear Hperm Hne Hlines.
  induction lines as [|line lines IH] using rev_ind; [done|].
  apply Forall_app in Hjoin as [Hjoin Hline].
  rewrite Forall_singleton in Hline. apply trim_truthy in Hline.
  rewrite foldl_snoc. unfold line_step at 1. rewrite Hline. simpl.
  by rewrite fmap_app, (IH Hjoin).
Qed.

Lemma pageBody_block_per_line_witness :
  let items := [frag "World" 60 11; frag "Hello" 10 10; frag "Bye" 10 40] in
  Forall (λ it, hasInk (Item.str it)) items ∧
  pageBody items
  = [mkParagraph None None [mkTextRun (lit "Hello World") true 24] false;
     mkParagraph None None [mkTextRun (lit "Bye") true 24] false].
Proof.
  intros items.
  assert (Forall (λ it, hasInk (Item.str it)) items) as H1.
  { repeat constructor; by left. }
  split; [done|].
  destruct (pageBody_block_per_line [] items _ H1 eq_refl) as [-> _].
  reflexivity.
Defined.

(** ** File names *)

Lemma replaceFirst_only_last pat rep base :
  pat ≠ [] →
  (∀ pre suf, base ++ pat = pre ++ pat ++ suf → suf = []) →
  replaceFirst pat rep (base ++ pat) = base ++ rep.
Proof.
  intros Hpat. induction base as [|c base IH]; intros Honly.
  - destruct pat as [|p pat]; [done|]. simpl.
    rewrite bool_decide_eq_true_2 by done.
    by rewrite drop_all, app_nil_r.
  - change (replaceFirst pat rep ((c :: base) ++ pat))
      with (if bool_decide (pat `prefix_of` c :: base ++ pat)
            then rep ++ drop (length pat) (c :: base ++ pat)
            else c :: replaceFirst pat rep (base ++ pat)).
    case_bool_decide as Hpre.
    + destruct Hpre as [k Hk]. exfalso.
      assert (k = []) as -> by (apply (Honly [] k); by rewrite <- Hk).
      rewrite app_nil_r in Hk. apply (f_equal length) in Hk.
      rewrite length_cons, length_app in Hk. lia.
    + simpl. f_equal. apply IH. intros pre suf Heq.
      apply (Honly (c :: pre) suf). simpl. by rewrite Heq.
Qed.

Lemma stripPdfSuffix_app base ext :
  lower <$> ext = lit ".pdf" → stripPdfSuffix (base ++ ext) = base.
Proof.
  intros Hext. assert (length ext = 4%nat) as Hlen.
  { apply (f_equal length) in Hext. by rewrite length_fmap in Hext. }
  unfold stripPdfSuffix. rewrite length_app, Hlen.
  replace (length base + 4 - 4)%nat with (length base) by lia.
  rewrite drop_app_length, take_app_length.
  by rewrite bool_decide_eq_true_2.
Qed.

(** X16. Round trip of the download name: for a file named [base]
    followed by the extension .pdf in any letter case, the base name is
    recovered, and the downloads are named base.docx and
    base-tables.xlsx. *)
Theorem downloadName_of_pdf base ext :
  lower <$> ext = lit ".pdf" →
  stripPdfSuffix (base ++ ext) = base ∧
  downloadName word (base ++ ext) = base ++ lit ".docx" ∧
  downloadName excel (base ++ ext) = base ++ lit "-tables.xlsx".
Proof.
  intros Hext. unfold downloadName.
  by rewrite (stripPdfSuffix_app base ext Hext).
Qed.

Lemma downloadName_of_pdf_witness :
  lower <$> lit ".PdF" = lit ".pdf" ∧
  downloadName excel (lit "Q3 report.PdF") = lit "Q3 report-tables.xlsx".
Proof.
  assert (lower <$> lit ".PdF" = lit ".pdf") as H1 by reflexivity.
  split; [done|].
  destruct (downloadName_of_pdf (lit "Q3 report") (lit ".PdF") H1)
    as (_ & _ & Hname).
  exact Hname.
Defined.

(** X17. When the file name ends in a lower-case .pdf and has no other
    occurrence of .pdf, the title of the flow output is the base name,
    the same string from which the download name is built. *)
Theorem title_is_base_name base pages :
  (∀ pre suf, base ++ lit ".pdf" = pre ++ lit ".pdf" ++ suf → suf = []) →
  ∃ body,
    convertToWord (base ++ lit ".pdf") pages
    = Some (mkParagraph (Some base) (Some HEADING_1) [] false :: body) ∧
    stripPdfSuffix (base ++ lit ".pdf") = base.
Proof.
  intros Honly. exists (spec_pages (length pages) 0 pages). split.
  - unfold convertToWord. rewrite word_pages_spec. simpl.
    unfold titleParagraph.
    rewrite (replaceFirst_only_last (lit ".pdf") [] base) by done.
    by rewrite app_nil_r.
  - by apply stripPdfSuffix_app.
Qed.

Lemma title_is_base_name_witness :
  (∀ pre suf, lit "a" ++ lit ".pdf" = pre ++ lit ".pdf" ++ suf → suf = []) ∧
  ∃ body,
    convertToWord (lit "a" ++ lit ".pdf") []
    = Some (mkParagraph (Some (lit "a")) (Some HEADING_1) [] false :: body).
Proof.
  assert (∀ pre suf,
    lit "a" ++ lit ".pdf" = pre ++ lit ".pdf" ++ suf → suf = []) as H1.
  { intros pre suf Heq.
    destruct pre as [|c0 [|c1 pre]]; [discriminate Heq| |].
    - simpl in Heq. by injection Heq as _ <-.
    - apply (f_equal length) in Heq. simpl in Heq.
      rewrite length_app in Heq. simpl in Heq. lia. }
  split; [exact H1|].
  destruct (title_is_base_name (lit "a") [] H1) as (body & Hrun & _).
  by exists body.
Defined.

(** ** formatBytes *)

Lemma pretty_N_go_acc x s :
  list_ascii_of_string (pretty_N_go x s)
  = list_ascii_of_string (pretty_N_go x "") ++ list_ascii_of_string s.
Proof.
  revert s. induction (N.lt_wf_0 x) as [x _ IH]; intros s.
  destruct (decide (x = 0%N)) as [->|Hx].
  - by rewrite !pretty_N_go_0.
  - assert (x `div` 10 < x)%N as Hlt by (apply N.div_lt; lia).
    rewrite !(pretty_N_go_step x) by lia.
    rewrite (IH _ Hlt (String (pretty_N_char (x `mod` 10)) s)).
    rewrite (IH _ Hlt (String (pretty_N_char (x `mod` 10)) "")).
    simpl. by rewrite <- (assoc_L (++)).
Qed.

Lemma pretty_N_small (n : N) : (n < 10)%N → lit (pretty n) = [digit n].
Proof.
  intros Hn. destruct (decide (n = 0%N)) as [->|Hn0]; [done|].
  unfold pretty, pretty_N. rewrite decide_False by done.
  rewrite pretty_N_go_step by lia.
  rewrite N.div_small, N.mod_small, pretty_N_go_0 by done. done.
Qed.

Lemma pretty_N_large (n : N) :
  (10 ≤ n)%N →
  lit (pretty n) = lit (pretty (n `div` 10)%N) ++ [digit (n `mod` 10)%N].
Proof.
  intros Hn. unfold pretty, pretty_N.
  assert (n `div` 10 ≠ 0)%N as Hq.
  { intros Hq. apply N.div_small_iff in Hq; lia. }
  rewrite !decide_False by (done || lia).
  rewrite (pretty_N_go_step n) by lia.
  unfold lit. rewrite pretty_N_go_acc. by rewrite fmap_app.
Qed.

Lemma pretty_Z_N (n : Z) : 0 ≤ n → pretty n = pretty (Z.to_N n).
Proof. intros Hn. destruct n; [done|done|lia]. Qed.

(** With one digit after the point, the result is the integer part, the
    point and the last digit of the rounded number of tenths. *)
Lemma toFixed_1 num den :
  let n := (2 * num * 10 + den) / (2 * den) in
  0 ≤ n →
  toFixed num den 1
  = lit (pretty (n / 10)) ++ lit "." ++ lit (pretty (n mod 10)).
Proof.
  intros n Hn. unfold toFixed.
  change (10 ^ Z.of_nat 1) with 10. fold n.
  rewrite bool_decide_eq_false_2 by done.
  assert (0 ≤ n / 10) as Hq0 by (apply Z.div_pos; lia).
  assert (0 ≤ n mod 10) as Hd0 by (apply Z.mod_pos_bound; lia).
  rewrite (pretty_Z_N n), (pretty_Z_N (n / 10)), (pretty_Z_N (n mod 10))
    by done.
  rewrite Z2N.inj_div, Z2N.inj_mod by lia.
  change (Z.to_N 10) with 10%N.
  set (m := Z.to_N n).
  rewrite (pretty_N_small (m `mod` 10)%N) by (apply N.mod_lt; lia).
  destruct (decide (m < 10)%N) as [Hsmall|Hlarge].
  - rewrite N.div_small, N.mod_small by done.
    rewrite (pretty_N_small m) by done. done.
  - rewrite (pretty_N_large m) by lia.
    set (q := lit (pretty (m `div` 10)%N)).
    assert (q ≠ []) as Hq.
    { unfold q. intros Hnil. apply (f_equal length) in Hnil.
      unfold lit in Hnil. rewrite length_fmap in Hnil.
      assert (pretty (m `div` 10)%N ≠ EmptyString) as Hne.
      { unfold pretty, pretty_N. case_decide as Hz; [done|].
        apply N.neq_0_lt_0 in Hz. rewrite pretty_N_go_step by done.
        intros Hemp. apply (f_equal list_ascii_of_string) in Hemp.
        rewrite pretty_N_go_acc in Hemp. simpl in Hemp.
        by apply app_eq_nil in Hemp as [_ ?]. }
      by destruct (pretty (m `div` 10)%N). }
    rewrite bool_decide_eq_false_2
      by (rewrite length_app; simpl; destruct q; [done|simpl; lia]).
    rewrite length_app. simpl.
    replace (length q + 1 - 1)%nat with (length q) by lia.
    by rewrite take_app_length, drop_app_length.
Qed.

(** X18. From 1024 bytes on, [formatBytes] prints the size in KB (below
    1024 * 1024 bytes) or MB with one digit after the point, rounded to
    the nearest tenth of the unit and upwards on a tie.  The switch to MB
    goes by the size, not by the printed number: sizes from 1048525 to
    1048575 bytes print as 1024.0 KB. *)
Theorem formatBytes_rounds bytes :
  1024 ≤ bytes →
  let kb := bool_decide (bytes < 1024 * 1024) in
  let scale := if kb then 1024 else 1024 * 1024 in
  ∃ q d,
    1 ≤ q ∧ 0 ≤ d ≤ 9 ∧
    formatBytes bytes
    = lit (pretty q) ++ lit "." ++ lit (pretty d)
      ++ (if kb then lit " KB" else lit " MB") ∧
    - scale ≤ 2 * (10 * bytes - scale * (10 * q + d)) < scale ∧
    (kb = true → q ≤ 1024 ∧ (q = 1024 ↔ 1048525 ≤ bytes)).
Proof.
  intros Hbytes kb scale. unfold formatBytes.
  rewrite bool_decide_eq_false_2 by lia. fold kb.
  set (n := (2 * bytes * 10 + scale) / (2 * scale)).
  assert (0 < scale) as Hunit by (unfold scale; destruct kb; lia).
  assert (2 * scale * n ≤ 2 * bytes * 10 + scale < 2 * scale * n + 2 * scale)
    as Hn.
  { unfold n. pose proof (Z.mul_div_le (2 * bytes * 10 + scale) (2 * scale)).
    pose proof (Z.mul_succ_div_gt (2 * bytes * 10 + scale) (2 * scale)). lia. }
  assert (scale ≤ bytes) as Hub.
  { unfold scale, kb. case_bool_decide; lia. }
  assert (10 ≤ n) as Hn10 by nia.
  exists (n / 10), (n mod 10).
  pose proof (Z.div_mod n 10). pose proof (Z.mod_pos_bound n 10).
  split; [apply Z.div_le_lower_bound; lia|]. split; [lia|]. split.
  - unfold scale. destruct kb; rewrite toFixed_1 by (fold scale n; lia);
      fold scale n; by rewrite <- !(assoc_L (++)).
  - replace (10 * (n / 10) + n mod 10) with n by lia. split; [lia|].
    intros Hkb. unfold kb in Hkb. apply bool_decide_eq_true in Hkb.
    assert (scale = 1024) as Heq.
    { unfold scale, kb. by rewrite bool_decide_eq_true_2. }
    rewrite Heq in Hn.
    assert (n ≤ 10240) by lia.
    split; [apply Z.div_le_upper_bound; lia|].
    split.
    + intros Hq. assert (10240 ≤ n) by lia. lia.
    + intros Hb. assert (10240 ≤ n) by lia.
      apply Z.le_antisymm; [apply Z.div_le_upper_bound; lia|].
      apply Z.div_le_lower_bound; lia.
Qed.

Lemma formatBytes_rounds_witness :
  1024 ≤ 1048575 ∧ formatBytes 1048575 = lit "1024.0 KB" ∧
  ∃ q d, 1 ≤ q ∧ 0 ≤ d ≤ 9 ∧
    - 1024 ≤ 2 * (10 * 1048575 - 1024 * (10 * q + d)) < 1024.
Proof.
  assert (1024 ≤ 1048575) as H1 by lia.
  split; [done|]. split; [reflexivity|].
  destruct (formatBytes_rounds 1048575 H1) as (q & d & Hq & Hd & _ & Hr & _).
  by exists q, d.
Defined.

(** ** Extraction *)

Section ExtractionFacts.
Context {number : Type} (round : number → Z) (minus : number → number → number).

Lemma extract_step_texts h items (item : @RawItem number) :
  Item.str <$> extract_step round minus h items item
  = (Item.str <$> items) ++ filter hasInk (rawTexts [item]).
Proof.
  destruct item as [s a b w ht|]; simpl.
  - unfold rawTexts. simpl. rewrite filter_cons, filter_nil.
    destruct (truthy (trim s)) eqn:Htr.
    + apply trim_truthy in Htr as Hink.
      rewrite decide_True by done. by rewrite fmap_app.
    + rewrite decide_False; [by rewrite app_nil_r|].
      intros Hink%trim_truthy. congruence.
  - by rewrite app_nil_r.
Qed.

Lemma extractPage_texts (page : number * list RawItem) :
  Item.str <$> extractPage round minus page = filter hasInk (rawTexts page.2).
Proof.
  unfold extractPage. destruct page as [h content]. simpl.
  induction content as [|item content IH] using rev_ind; [done|].
  rewrite foldl_snoc, extract_step_texts, IH.
  unfold rawTexts. by rewrite omap_app, filter_app.
Qed.

Lemma extractPage_ink (page : number * list RawItem) :
  Forall (λ it, hasInk (Item.str it)) (extractPage round minus page).
Proof.
  apply Forall_forall. intros it Hit.
  apply (list_elem_of_fmap_2 Item.str) in Hit.
  rewrite extractPage_texts in Hit.
  by apply list_elem_of_filter in Hit as [? _].
Qed.

(** X19. Extraction keeps exactly the text items whose text has a
    character that is not white space, in their order, one list per
    page: every extracted fragment has such a character, and a page
    without any yields the empty list. *)
Theorem extractTextItems_keeps_inked doc :
  length (extractTextItems round minus doc) = length doc ∧
  Forall (Forall (λ it, hasInk (Item.str it)))
    (extractTextItems round minus doc) ∧
  ∀ (p : nat) page, doc !! p = Some page →
    ∃ items, extractTextItems round minus doc !! p = Some items ∧
      Item.str <$> items = filter hasInk (rawTexts page.2) ∧
      (items = [] ↔ Forall (λ s, ¬ hasInk s) (rawTexts page.2)).
Proof.
  unfold extractTextItems. split; [by rewrite length_fmap|].
  split; [apply Forall_fmap, Forall_true; apply extractPage_ink|].
  intros p page Hp. exists (extractPage round minus page).
  split; [by rewrite list_lookup_fmap, Hp|].
  split; [apply extractPage_texts|].
  pose proof (extractPage_texts page) as Htexts. split.
  - intros Hnil. rewrite Hnil in Htexts. simpl in Htexts.
    apply Forall_forall. intros s Hs Hink'.
    assert (s ∈ filter hasInk (rawTexts page.2)) as Hin
      by (by apply list_elem_of_filter).
    rewrite <- Htexts in Hin. by apply elem_of_nil in Hin.
  - intros Hall. apply fmap_nil_inv with (f := Item.str).
    rewrite Htexts. apply elem_of_nil_inv.
    intros s [Hs Hin]%list_elem_of_filter.
    rewrite Forall_forall in Hall. by apply (Hall s).
Qed.

(** X20. Extraction and table conversion together: in the workbook built
    from an extracted document, each page with an extracted fragment has
    a sheet, named after the page, with exactly one row per line of the
    page, no row being dropped as blank. *)
Theorem extracted_tables_row_per_line doc sheets :
  convertToExcel (extractTextItems round minus doc) = Some sheets →
  ∀ (q : nat) items,
    extractTextItems round minus doc !! q = Some items → items ≠ [] →
    ∃ s lines,
      s ∈ sheets ∧ sheetName s = sheetNameOf (length doc) q ∧
      groupIntoLines items 8 = Some lines ∧
      sheetData s = buildRow (detectColumns lines) <$> lines.
Proof.
  set (pages := extractTextItems round minus doc).
  assert (length pages = length doc) as Hlen
    by (unfold pages, extractTextItems; by rewrite length_fmap).
  assert (Forall (Forall (λ it, hasInk (Item.str it))) pages) as Hink.
  { unfold pages, extractTextItems. apply Forall_fmap, Forall_true.
    apply extractPage_ink. }
  intros Hrun q items Hq Hne. rewrite <- Hlen.
  apply (sheet_row_per_line pages sheets q items); [done|done|done|].
  rewrite Forall_lookup in Hink. by eapply Hink.
Qed.
End ExtractionFacts.

Lemma extracted_tables_row_per_line_witness :
  let doc := [(800, [RawText (lit "A") 10 790 5 9; RawMarked;
                     RawText (lit "  ") 40 790 5 9;
                     RawText (lit "B") 10 750 5 9])] in
  let items := [frag' "A" 10 10 5 9; frag' "B" 10 50 5 9] in
  ∃ sheets,
    convertToExcel (extractTextItems id Z.sub doc) = Some sheets ∧
    extractTextItems id Z.sub doc !! 0%nat = Some items ∧ items ≠ [] ∧
    ∃ s, s ∈ sheets ∧ sheetName s = lit "Sheet1" ∧
      sheetData s = [[lit "A"]; [lit "B"]].
Proof.
  intros doc items. eexists.
  assert (convertToExcel (extractTextItems id Z.sub doc) = Some _) as H1
    by reflexivity.
  assert (extractTextItems id Z.sub doc !! 0%nat = Some items) as H2
    by reflexivity.
  assert (items ≠ []) as H3 by done.
  split; [exact H1|]. split; [done|]. split; [done|].
  destruct (extracted_tables_row_per_line id Z.sub doc _ H1 0 items H2 H3)
    as (s & lines & Hs & Hname & Hlines & Hdata).
  exists s. split; [done|]. split; [exact Hname|].
  assert (lines = [[frag' "A" 10 10 5 9]; [frag' "B" 10 50 5 9]]) as ->.
  { apply (inj Some). rewrite <- Hlines. reflexivity. }
  rewrite Hdata. reflexivity.
Defined.

(** ** Columns and the set of positions *)

(** X21. The detected columns depend only on which x-positions occur on
    the page, not on their order, their multiplicity or the lines they
    stand on. *)
Theorem detectColumns_set_only lines lines' :
  (∀ v, v ∈ xPositions lines ↔ v ∈ xPositions lines') →
  detectColumns lines = detectColumns lines'.
Proof.
  intros Hset. rewrite !detectColumns_spec. f_equal.
  apply (StronglySorted_unique Z.le); [apply sortNum_sorted..|].
  rewrite !js_sort_perm.
  apply NoDup_Permutation; [apply distinct_NoDup..|].
  intros v. by rewrite !distinct_elem_of.
Qed.

Lemma detectColumns_set_only_witness :
  let lines := [[frag "a" 10 1; frag "b" 80 1]; [frag "c" 10 9]] in
  let lines' := [[frag "p" 80 3]; [frag "q" 10 3; frag "r" 80 7]] in
  (∀ v, v ∈ xPositions lines ↔ v ∈ xPositions lines') ∧
  detectColumns lines = detectColumns lines'.
Proof.
  intros lines lines'.
  assert (∀ v, v ∈ xPositions lines ↔ v ∈ xPositions lines') as Hset.
  { intros v. change (v ∈ [10; 80; 10] ↔ v ∈ [80; 10; 80]).
    rewrite !elem_of_cons, !elem_of_nil. tauto. }
  split; [exact Hset|].
  exact (detectColumns_set_only lines lines' Hset).
Defined.

(** ** Lines and the tolerance *)

(** Two walks over the same sorted fragments, the second with the larger
    tolerance: it has no more lines when its current line reaches at
    least as far, and at most one more when the reference of the first
    lies within its current line. *)
Lemma walk_lines_count_mono t t' rest :
  t ≤ t' → StronglySorted le_y rest →
  ∀ ref ref' cur cur',
    Forall (λ f, le_y ref f ∧ le_y ref' f) rest →
    (Item.y ref + t ≤ Item.y ref' + t' →
     (length (walk_lines t' ref' cur' rest)
      ≤ length (walk_lines t ref cur rest))%nat) ∧
    (Item.y ref ≤ Item.y ref' + t' →
     (length (walk_lines t' ref' cur' rest)
      ≤ S (length (walk_lines t ref cur rest)))%nat).
Proof.
  intros Ht. induction 1 as [|f rest Hrest IH Hf];
    intros ref ref' cur cur' Hge; simpl; [split; lia|].
  apply Forall_cons in Hge as [[Hrf Hrf'] Hge]. unfold le_y in Hrf, Hrf'.
  assert (Forall (λ g, le_y f g ∧ le_y f g) rest) as Hff.
  { eapply Forall_impl; [exact Hf|]. by intros g ?. }
  assert (Forall (λ g, le_y f g ∧ le_y ref' g) rest) as Hfr.
  { rewrite Forall_forall in Hf, Hge |- *. intros g Hg.
    split; [by apply Hf|by apply Hge]. }
  assert (Forall (λ g, le_y ref g ∧ le_y f g) rest) as Hrf2.
  { rewrite Forall_forall in Hf, Hge |- *. intros g Hg.
    split; [by apply Hge|by apply Hf]. }
  destruct (IH f f [f] [f] Hff) as [IHff _].
  destruct (IH f ref' [f] (cur' ++ [f]) Hfr) as [_ IHfr].
  destruct (IH ref f (cur ++ [f]) [f] Hrf2) as [IHrf _].
  destruct (IH ref ref' (cur ++ [f]) (cur' ++ [f]) Hge) as [IHA IHB].
  repeat case_bool_decide; simpl; split; intros Hreach; lia.
Qed.

(** X22. A larger tolerance never gives more lines: in particular the
    table conversion, at tolerance 8, groups a page into at most as many
    lines as the flow conversion does at tolerance 5. *)
Theorem groupIntoLines_tolerance_mono items t t' lines lines' :
  t ≤ t' →
  groupIntoLines items t = Some lines →
  groupIntoLines items t' = Some lines' →
  (length lines' ≤ length lines)%nat.
Proof.
  intros Ht. rewrite !groupIntoLines_spec. intros [= <-] [= <-].
  rewrite !length_fmap.
  pose proof (sortYX_sorted items) as Hs.
  destruct (js_sort cmpYX items) as [|ref rest]; [done|]. simpl.
  apply StronglySorted_cons in Hs as [Href Hs].
  apply (walk_lines_count_mono t t' rest Ht).
  - eapply StronglySorted_weaken; [|exact Hs].
    unfold le_yx, le_y. intros; lia.
  - eapply Forall_impl; [exact Href|].
    unfold le_yx, le_y. intros; lia.
  - lia.
Qed.

Lemma groupIntoLines_tolerance_mono_witness :
  let items := [frag "a" 10 0; frag "b" 10 6; frag "c" 10 12] in
  5 ≤ 8 ∧
  groupIntoLines items 5 = Some [[frag "a" 10 0]; [frag "b" 10 6]; [frag "c" 10 12]] ∧
  groupIntoLines items 8 = Some [[frag "a" 10 0; frag "b" 10 6]; [frag "c" 10 12]] ∧
  (2 ≤ 3)%nat.
Proof.
  intros items.
  assert (5 ≤ 8) as H0 by lia.
  split; [done|]. split; [reflexivity|]. split; [reflexivity|].
  exact (groupIntoLines_tolerance_mono items 5 8 _ _ H0 eq_refl eq_refl).
Defined.
